(** * Type-level object utilities of [src/lib/types/objects.ts]

    The library is a set of TypeScript type aliases.  Each alias is a pure
    function from types to types, evaluated by the type checker.  This file
    embeds the aliases as functions over a small universe of types and
    proves the documented equations about them.

    Conventions of the embedding.

    - The checker is taken in its strict configuration ([strictNullChecks]
      on, [exactOptionalPropertyTypes] off); the library's own [CanBeUndef]
      is meaningless otherwise.  In that configuration the type of an
      optional property [k?: T], as seen through the indexed access
      [R[k]], is [T | undefined].  A property therefore stores the type
      that [R[k]] reads, next to its two modifiers.
    - A record type is a finite map from property names to properties, so
      two record types are equal exactly when they bind the same keys to
      the same properties; key order is not observable.
    - A key set (a unit key type or a union of them, [never] being the
      empty one) is a finite set of property names.  Numeric and symbol
      keys behave like names for every alias embedded here.
    - Index signatures, arrays, tuples and function types are outside the
      universe. *)

From stdpp Require Import base option gmap strings list fin_maps fin_map_dom.

Set Default Proof Using "Type".
#[local] Open Scope string_scope.
#[local] Set Warnings "-register-all".

(** ** The universe of types *)

(** Modifiers and type of one property of an object type. *)
Record property (T : Type) : Type := Property {
  optional : bool;
  readonly : bool;
  ptype : T
}.
Arguments Property {T} _ _ _.
Arguments optional {T} _.
Arguments readonly {T} _.
Arguments ptype {T} _.

Inductive prim : Type := PString | PNumber | PBoolean | PNull.

Inductive ty : Type :=
  | TAny
  | TUnknown
  | TNever
  | TUndefined
  | TPrim (p : prim)
  | TLit (s : string)
  | TUnion (a b : ty)
  | TInter (a b : ty)
  | TRecord (m : gmap string (property ty)).

Global Instance prim_eq_dec : EqDecision prim.
Proof. solve_decision. Defined.

Global Instance property_eq_dec {T} `{EqDecision T} : EqDecision (property T).
Proof. solve_decision. Defined.

Global Instance ty_eq_dec : EqDecision ty.
Proof.
  refine (fix go (t1 t2 : ty) {struct t1} : Decision (t1 = t2) :=
    let _ : EqDecision ty := @go in
    match t1, t2 with
    | TAny, TAny | TUnknown, TUnknown | TNever, TNever
    | TUndefined, TUndefined => left _
    | TPrim p1, TPrim p2 => cast_if (decide (p1 = p2))
    | TLit s1, TLit s2 => cast_if (decide (s1 = s2))
    | TUnion a1 b1, TUnion a2 b2 =>
        cast_if_and (decide (a1 = a2)) (decide (b1 = b2))
    | TInter a1 b1, TInter a2 b2 =>
        cast_if_and (decide (a1 = a2)) (decide (b1 = b2))
    | TRecord m1, TRecord m2 => cast_if (decide (m1 = m2))
    | _, _ => right _
    end); try reflexivity; try abstract congruence.
Defined.

(** Number of constructors of a type; the measure behind [ty_ind']. *)
Fixpoint ty_size (t : ty) : nat :=
  match t with
  | TUnion a b | TInter a b => S (ty_size a + ty_size b)
  | TRecord m => S (map_fold (λ _ p n, ty_size (ptype p) + n) 0 m)
  | _ => 1
  end.

(** ** Union types *)

(** The constituents of a union, flattened; [never] is the empty union. *)
Fixpoint members (t : ty) : list ty :=
  match t with
  | TNever => []
  | TUnion a b => members a ++ members b
  | _ => [t]
  end.

(** [a | b] as the checker builds it: [any] and [unknown] absorb, [never]
    disappears, and a side whose constituents all occur in the other side
    adds nothing. *)
Definition union (a b : ty) : ty :=
  match a, b with
  | TAny, _ | _, TAny => TAny
  | TUnknown, _ | _, TUnknown => TUnknown
  | TNever, t | t, TNever => t
  | _, _ =>
      if decide (members b ⊆ members a) then a
      else if decide (members a ⊆ members b) then b
      else TUnion a b
  end.

(** Does [undefined] occur among the values of the type?  This is the
    checker's test before it adds [undefined] to an optional property. *)
Fixpoint admits_undefined (t : ty) : bool :=
  match t with
  | TAny | TUnknown | TUndefined => true
  | TUnion a b => admits_undefined a || admits_undefined b
  | TInter a b => admits_undefined a && admits_undefined b
  | _ => false
  end.

(** The [?] modifier on a property type: add [undefined] unless present. *)
Definition add_undefined (t : ty) : ty :=
  if admits_undefined t then t else union t TUndefined.

(** The [-?] modifier on a property type: drop [undefined]. *)
Fixpoint remove_undefined (t : ty) : ty :=
  match t with
  | TUndefined => TNever
  | TUnion a b => union (remove_undefined a) (remove_undefined b)
  | _ => t
  end.

(** A type used as a key set: the string-literal constituents. *)
Definition keyset (t : ty) : gset string :=
  list_to_set (omap (λ m, match m with TLit s => Some s | _ => None end)
                    (members t)).

(** ** Built-in type operators *)

(** [keyof R]. *)
Definition keyof (R : gmap string (property ty)) : gset string := dom R.

(** [Exclude<T, U>] on key sets. *)
Definition Exclude (T U : gset string) : gset string := T ∖ U.

(** [Pick<R, K>], the homomorphic [{ [P in K]: R[P] }]: the properties of
    [R] named in [K], modifiers included. *)
Definition Pick (R : gmap string (property ty)) (K : gset string)
    : gmap string (property ty) :=
  filter (λ kp, kp.1 ∈ K) R.

(** [Record<K, V>], the non-homomorphic [{ [P in K]: V }]: one required,
    mutable property of type [V] per key. *)
Definition Record_ (K : gset string) (V : ty) : gmap string (property ty) :=
  gset_to_gmap (Property false false V) K.

(** [Readonly<R>]. *)
Definition Readonly (R : gmap string (property ty))
    : gmap string (property ty) :=
  (λ p, Property (optional p) true (ptype p)) <$> R.

(** Indexed access [R[K]] for a key set [K]: the union of the property
    types read at the keys.  A key outside [keyof R] is rejected by the
    checker and contributes nothing here. *)
Definition index (R : gmap string (property ty)) (K : gset string) : ty :=
  foldr union TNever
    ((λ k, default TNever (ptype <$> R !! k)) <$> elements K).

(** Intersection [A & B] of two object types, as one object type.  A
    property of both sides is optional only if it is optional in both,
    readonly only if it is readonly in both, and has the intersection of
    the two property types. *)
Definition intersect (A B : gmap string (property ty))
    : gmap string (property ty) :=
  union_with (λ p q, Some (Property (optional p && optional q)
                                    (readonly p && readonly q)
                                    (TInter (ptype p) (ptype q)))) A B.

(** Is the type assignable to [Record<any, any>], the constraint [Obj]
    with its default arguments?  Object types are, primitives and
    [unknown] are not; [any] is decided apart in [DeepMapValues]. *)
Fixpoint extends_Obj (t : ty) : bool :=
  match t with
  | TAny | TNever | TRecord _ => true
  | TUnion a b => extends_Obj a && extends_Obj b
  | TInter a b => extends_Obj a || extends_Obj b
  | _ => false
  end.

(** Is the type [any] itself?  A conditional type whose checked type is
    [any] evaluates to the union of its two branches. *)
Definition is_any (t : ty) : bool :=
  match t with TAny => true | _ => false end.

(** ** Aliases imported from [./logical] and [./pick] *)

(** Modelled from the spec: [CanBeUndef] of [./logical] is not part of the
    sources at hand.  The type admits [undefined] as a possible value;
    [unknown] and [any] count. *)
Definition CanBeUndef (t : ty) : bool := admits_undefined t.

(** Modelled from the spec: [If] of [./logical] is not part of the sources
    at hand.  The type-level conditional on a boolean literal type. *)
Definition If {A} (c : bool) (t e : A) : A := if c then t else e.

(** Modelled from the spec: [PickAsOptional] of [./pick] is not part of
    the sources at hand.  The properties of [R] named in [K], each marked
    optional, so that each reads with [undefined]; nothing else changes. *)
Definition PickAsOptional (R : gmap string (property ty)) (K : gset string)
    : gmap string (property ty) :=
  (λ p, Property true (readonly p) (add_undefined (ptype p))) <$> Pick R K.

(** ** The aliases of [objects.ts] *)

(** [Obj<TValue, TKeys> = Record<TKeys, TValue>]. *)
Definition Obj (TValue : ty) (TKeys : gset string)
    : gmap string (property ty) :=
  Record_ TKeys TValue.

(** [ValueOf<TObj> = TObj[keyof TObj]]. *)
Definition ValueOf (TObj : gmap string (property ty)) : ty :=
  index TObj (keyof TObj).

(** [ReadonlyObj<TValue, TKey> = Readonly<Obj<TValue, TKey>>]. *)
Definition ReadonlyObj (TValue : ty) (TKey : gset string)
    : gmap string (property ty) :=
  Readonly (Obj TValue TKey).

(** [MapValues<TSrcObj, TMappedValue> = Obj<TMappedValue, keyof TSrcObj>]. *)
Definition MapValues (TSrcObj : gmap string (property ty)) (TMappedValue : ty)
    : gmap string (property ty) :=
  Obj TMappedValue (keyof TSrcObj).

(** [Merge<TObj1, TObj2> =
      Pick<TObj1, Exclude<keyof TObj1, keyof TObj2>> & TObj2]. *)
Definition Merge (TObj1 TObj2 : gmap string (property ty))
    : gmap string (property ty) :=
  intersect (Pick TObj1 (Exclude (keyof TObj1) (keyof TObj2))) TObj2.

(** [ReplaceValues<TSrcObj, TKeys, TNewValue> =
      Merge<TSrcObj, Obj<TNewValue, TKeys>>]. *)
Definition ReplaceValues (TSrcObj : gmap string (property ty))
    (TKeys : gset string) (TNewValue : ty) : gmap string (property ty) :=
  Merge TSrcObj (Obj TNewValue TKeys).

(** [RemoveKeys<TSrcObj, TKeysUnion> =
      Pick<TSrcObj, Exclude<keyof TSrcObj, TKeysUnion>>]. *)
Definition RemoveKeys (TSrcObj : gmap string (property ty))
    (TKeysUnion : gset string) : gmap string (property ty) :=
  Pick TSrcObj (Exclude (keyof TSrcObj) TKeysUnion).

(** [RenameKey<TObj, TPrevKey, TNewKey> =
      Merge<RemoveKeys<TObj, TPrevKey>, Obj<TObj[TPrevKey], TNewKey>>]. *)
Definition RenameKey (TObj : gmap string (property ty))
    (TPrevKey TNewKey : gset string) : gmap string (property ty) :=
  Merge (RemoveKeys TObj TPrevKey) (Obj (index TObj TPrevKey) TNewKey).

(** The mapped type inside [PickLikelyUndefPropsAsOptional],
    [{ [TKey in keyof TObj]-?: If<CanBeUndef<TObj[TKey]>, TKey, never> }]:
    homomorphic in [TObj], every property made required. *)
Definition LikelyUndefKeys (TObj : gmap string (property ty))
    : gmap string (property ty) :=
  map_imap (λ TKey p,
    Some (Property false (readonly p)
            (remove_undefined
               (If (CanBeUndef (ptype p)) (TLit TKey) TNever)))) TObj.

(** [PickLikelyUndefPropsAsOptional<TObj> =
      PickAsOptional<TObj, ValueOf<{ ... }>>]. *)
Definition PickLikelyUndefPropsAsOptional (TObj : gmap string (property ty))
    : gmap string (property ty) :=
  PickAsOptional TObj (keyset (ValueOf (LikelyUndefKeys TObj))).

(** [OptionalLikelyUndefProps<TObj> =
      Merge<TObj, PickLikelyUndefPropsAsOptional<TObj>>]. *)
Definition OptionalLikelyUndefProps (TObj : gmap string (property ty))
    : gmap string (property ty) :=
  Merge TObj (PickLikelyUndefPropsAsOptional TObj).

(** Every entry of a map of optional results, or nothing. *)
Definition map_sequence {A} (m : gmap string (option A))
    : option (gmap string A) :=
  if decide (map_Forall (λ _ o, is_Some o) m) then Some (omap id m) else None.

(** Is the type an object type: a record type or an intersection of
    object types? *)
Fixpoint is_object (t : ty) : bool :=
  match t with
  | TRecord _ => true
  | TInter a b => is_object a && is_object b
  | _ => false
  end.

(** [DeepMapValues<TSrcObj, TMappedValue> =
      { [TKey in keyof TSrcObj]: TSrcObj[TKey] extends Obj
          ? DeepMapValues<TSrcObj[TKey], TMappedValue> : TMappedValue }].

    The mapped type is homomorphic in [TSrcObj]: it keeps the modifiers of
    each property (so an optional property reads with [undefined] again),
    maps over the constituents of a union, and leaves [never] and
    primitives as they are.  The conditional type does not distribute, its
    checked type being [TSrcObj[TKey]] and not a bare parameter.

    Over an intersection of object types the mapped type has the
    properties of both operands.  Where the operands have no key in common
    each property is that of its operand, so the result is the two
    results put together.

    The result is [None] where it leaves the universe: for a checked type
    [any] the conditional is the union of both branches and
    [DeepMapValues<any, _>] is an index-signature type that unfolds without
    end; over an intersection whose operands share a key, or one of whose
    operands is not an object type, the result depends on how the checker
    reduces the intersected types, which is not represented. *)
Fixpoint DeepMapValues (TSrcObj : ty) (TMappedValue : ty) : option ty :=
  match TSrcObj with
  | TRecord m =>
      TRecord <$> map_sequence ((λ p,
        (λ t, Property (optional p) (readonly p)
                (if optional p then add_undefined t else t)) <$>
        (if is_any (ptype p) then None
         else if extends_Obj (ptype p)
              then DeepMapValues (ptype p) TMappedValue
              else Some TMappedValue)) <$> m)
  | TUnion a b =>
      a' ← DeepMapValues a TMappedValue;
      b' ← DeepMapValues b TMappedValue;
      Some (union a' b')
  | TInter a b =>
      if is_object a && is_object b then
        match DeepMapValues a TMappedValue, DeepMapValues b TMappedValue with
        | Some (TRecord ma), Some (TRecord mb) =>
            if decide (keyof ma ## keyof mb)
            then Some (TRecord (intersect ma mb)) else None
        | _, _ => None
        end
      else None
  | TUnknown => Some (TRecord ∅)
  | TAny => None
  | TNever | TUndefined | TPrim _ | TLit _ => Some TSrcObj
  end.

(** What [DeepMapValues] makes of one property: the conditional type on
    the property type, under the modifiers of the property. *)
Definition DeepMapValues_property (TMappedValue : ty) (p : property ty)
    : option (property ty) :=
  (λ t, Property (optional p) (readonly p)
          (if optional p then add_undefined t else t)) <$>
  (if is_any (ptype p) then None
   else if extends_Obj (ptype p)
        then DeepMapValues (ptype p) TMappedValue
        else Some TMappedValue).

(** Neither [any] nor an intersection occurs in the type, at any depth. *)
Fixpoint plain (t : ty) : bool :=
  match t with
  | TAny | TInter _ _ => false
  | TUnion a b => plain a && plain b
  | TRecord m => map_fold (λ _ p b, plain (ptype p) && b) true m
  | _ => true
  end.

(** The type written after the colon of a property: for an optional
    property, the type it reads without the [undefined] that the modifier
    contributes. *)
Definition declared_type (p : property ty) : ty :=
  if optional p then remove_undefined (ptype p) else ptype p.

(** C5 as it is worded: [DeepMapValues<R, V>] has the keys of [R], a key
    bound to a record type is bound to the transformation of that record
    type, and any other key is bound to [V]. *)
Definition DeepMapValues_recurses_into_records
    (R : gmap string (property ty)) (V : ty) : Prop :=
  ∃ R', DeepMapValues (TRecord R) V = Some (TRecord R') ∧
        keyof R' = keyof R ∧
        ∀ k p, R !! k = Some p →
          ∃ p', R' !! k = Some p' ∧
                match declared_type p with
                | TRecord m =>
                    DeepMapValues (TRecord m) V = Some (declared_type p')
                | _ => declared_type p' = V
                end.

(** ** Well-formed records, and types made of key literals *)

(** The invariant of the representation: a property marked optional reads
    with [undefined]. *)
Definition wf_record (R : gmap string (property ty)) : Prop :=
  map_Forall (λ _ p, optional p = true → admits_undefined (ptype p) = true) R.

(** [any] and [unknown], the two types that absorb every union. *)
Definition is_top (t : ty) : bool :=
  match t with TAny | TUnknown => true | _ => false end.

(** A unit key type, a union of them, or [never]. *)
Definition keylike (t : ty) : Prop :=
  Forall (λ m, ∃ s, m = TLit s) (members t).

(** ** Record types used as concrete inputs *)

Definition str : ty := TPrim PString.
Definition num : ty := TPrim PNumber.

(** [{ a: string, b: string | undefined }] *)
Definition R_ab : gmap string (property ty) :=
  {[ "a" := Property false false str;
     "b" := Property false false (TUnion str TUndefined) ]}.

(** [{ a: string, b?: string | undefined }] *)
Definition R_ab_optional : gmap string (property ty) :=
  {[ "a" := Property false false str;
     "b" := Property true false (TUnion str TUndefined) ]}.

(** [{ a?: string }] *)
Definition R_optional_a : gmap string (property ty) :=
  {[ "a" := Property true false (TUnion str TUndefined) ]}.

(** [{ a?: string, readonly b: number, c: string }] *)
Definition R_modifiers : gmap string (property ty) :=
  {[ "a" := Property true false (TUnion str TUndefined);
     "b" := Property false true num;
     "c" := Property false false str ]}.

(** [{ a: { b: string } }] *)
Definition R_nested_required : gmap string (property ty) :=
  {[ "a" := Property false false
              (TRecord {[ "b" := Property false false str ]}) ]}.

(** [{ a?: { b: string } }] *)
Definition R_nested_optional : gmap string (property ty) :=
  {[ "a" := Property true false
              (TUnion (TRecord {[ "b" := Property false false str ]})
                      TUndefined) ]}.

(** [{ a: { b: string, c?: string }, d: string | { e: string } }] *)
Definition R_nested : gmap string (property ty) :=
  {[ "a" := Property false false
              (TRecord {[ "b" := Property false false str;
                          "c" := Property true false
                                   (TUnion str TUndefined) ]});
     "d" := Property false false
              (TUnion str (TRecord {[ "e" := Property false false str ]})) ]}.

(** ** Lookups in the built-in operators *)

Section operators.
Implicit Types R A B : gmap string (property ty).
Implicit Types K : gset string.
Implicit Types k : string.

Lemma lookup_Pick R K k :
  Pick R K !! k = if decide (k ∈ K) then R !! k else None.
Proof.
  unfold Pick. case_decide as Hk.
  - destruct (R !! k) as [p|] eqn:HR.
    + by apply map_lookup_filter_Some.
    + apply map_lookup_filter_None. left. done.
  - apply map_lookup_filter_None. right. intros p _. done.
Qed.

Lemma lookup_Record_ K V k :
  Record_ K V !! k =
    if decide (k ∈ K) then Some (Property false false V) else None.
Proof.
  unfold Record_. rewrite lookup_gset_to_gmap.
  case_decide; [by rewrite option_guard_True|by rewrite option_guard_False].
Qed.

Lemma keyof_Record_ K V : keyof (Record_ K V) = K.
Proof. unfold keyof, Record_. apply dom_gset_to_gmap. Qed.

Lemma lookup_intersect_l A B k :
  B !! k = None → intersect A B !! k = A !! k.
Proof.
  intros HB. unfold intersect. rewrite lookup_union_with, HB.
  by destruct (A !! k).
Qed.

Lemma lookup_intersect_r A B k :
  A !! k = None → intersect A B !! k = B !! k.
Proof.
  intros HA. unfold intersect. rewrite lookup_union_with, HA.
  by destruct (B !! k).
Qed.

(** What [Merge] binds at a key: the right operand's property where it
    has one, the left operand's otherwise.  The two sides of the
    intersection never share a key. *)
Lemma lookup_Merge A B k :
  Merge A B !! k = match B !! k with Some q => Some q | None => A !! k end.
Proof.
  unfold Merge. destruct (B !! k) as [q|] eqn:HB.
  - rewrite lookup_intersect_r; [done|].
    rewrite lookup_Pick. case_decide as Hk; [|done].
    unfold Exclude, keyof in Hk. apply elem_of_difference in Hk as [_ Hk].
    exfalso. apply Hk. apply elem_of_dom. eauto.
  - rewrite lookup_intersect_l by done.
    rewrite lookup_Pick. case_decide as Hk; [done|].
    destruct (A !! k) as [p|] eqn:HA; [|done].
    exfalso. apply Hk. unfold Exclude, keyof. apply elem_of_difference.
    split; [apply elem_of_dom; eauto|].
    intros [q Hq]%elem_of_dom. congruence.
Qed.

Lemma keyof_Merge A B : keyof (Merge A B) = keyof A ∪ keyof B.
Proof.
  unfold keyof. apply set_eq. intros k.
  rewrite elem_of_union, !elem_of_dom, lookup_Merge.
  destruct (B !! k) as [q|], (A !! k) as [p|]; split; eauto.
  by intros [?|?].
Qed.

Lemma lookup_RemoveKeys R K k :
  RemoveKeys R K !! k = if decide (k ∈ K) then None else R !! k.
Proof.
  unfold RemoveKeys, Exclude, keyof. rewrite lookup_Pick.
  destruct (decide (k ∈ K)) as [HK|HK].
  - rewrite decide_False; [done|]. rewrite elem_of_difference. tauto.
  - destruct (R !! k) as [p|] eqn:HR; [|by case_decide].
    rewrite decide_True; [done|]. apply elem_of_difference. split; [|done].
    apply elem_of_dom. eauto.
Qed.
End operators.

(** Merging with the empty record type, on either side, changes nothing. *)
Lemma Merge_empty_r (R : gmap string (property ty)) : Merge R ∅ = R.
Proof. apply map_eq. intros k. by rewrite lookup_Merge, lookup_empty. Qed.

Lemma Merge_empty_l (R : gmap string (property ty)) : Merge ∅ R = R.
Proof.
  apply map_eq. intros k. rewrite lookup_Merge, lookup_empty.
  by destruct (R !! k).
Qed.

(** ** The representation invariant *)

Lemma admits_undefined_members t :
  TUndefined ∈ members t → admits_undefined t = true.
Proof.
  induction t as [| | | |p|s|a IHa b IHb|a _ b _|m]; simpl;
    try (by intros [=]%list_elem_of_singleton); try done.
  - by intros ?%elem_of_nil.
  - intros [Ha|Hb]%elem_of_app; apply orb_true_iff; auto.
Qed.

Lemma add_undefined_admits t : admits_undefined (add_undefined t) = true.
Proof.
  unfold add_undefined. destruct (admits_undefined t) eqn:Ht; [done|].
  assert (Hgen : admits_undefined
    (if decide (members TUndefined ⊆ members t) then t
     else if decide (members t ⊆ members TUndefined) then TUndefined
     else TUnion t TUndefined) = true).
  { repeat case_decide; [|done|simpl; apply orb_true_r].
    rewrite admits_undefined_members in Ht; [done|].
    match goal with H : _ ⊆ _ |- _ => apply H end. simpl. left. }
  destruct t; try done; exact Hgen.
Qed.

Lemma wf_record_Obj V K : wf_record (Obj V K).
Proof.
  intros k p. unfold Obj. rewrite lookup_Record_.
  case_decide; [|done]. by intros [= <-].
Qed.

Lemma wf_record_Merge (A B : gmap string (property ty)) :
  wf_record A → wf_record B → wf_record (Merge A B).
Proof.
  intros HA HB k p. rewrite lookup_Merge.
  destruct (B !! k) as [q|] eqn:Hq.
  - intros [= <-]. by apply (HB k q).
  - apply HA.
Qed.

Lemma wf_record_PickAsOptional (R : gmap string (property ty)) K :
  wf_record (PickAsOptional R K).
Proof.
  intros k p. unfold PickAsOptional. rewrite lookup_fmap.
  destruct (Pick R K !! k) as [q|]; [|done]. simpl.
  intros [= <-] _. simpl. apply add_undefined_admits.
Qed.

Lemma wf_record_OptionalLikelyUndefProps (R : gmap string (property ty)) :
  wf_record R → wf_record (OptionalLikelyUndefProps R).
Proof.
  intros HR. apply wf_record_Merge; [done|].
  apply wf_record_PickAsOptional.
Qed.

(** ** Unions and indexed access *)

Lemma union_never_r t : union t TNever = t.
Proof. by destruct t. Qed.

Lemma union_never_l t : union TNever t = t.
Proof. by destruct t. Qed.

Lemma union_idemp t : union t t = t.
Proof.
  destruct t; simpl; try done; by rewrite decide_True.
Qed.

(** The union of a non-empty list of copies of one type is that type. *)
Lemma foldr_union_const (X : ty) (l : list ty) :
  l ≠ [] → Forall (λ t, t = X) l → foldr union TNever l = X.
Proof.
  induction l as [|t l IH]; [done|]. intros _ Hall.
  apply Forall_cons in Hall as [-> Hall]. simpl.
  destruct l as [|t' l]; [apply union_never_r|].
  rewrite IH by done. apply union_idemp.
Qed.

Lemma index_singleton (R : gmap string (property ty)) k p :
  R !! k = Some p → index R {[k]} = ptype p.
Proof.
  intros HR. unfold index. rewrite elements_singleton. simpl.
  rewrite HR. simpl. apply union_never_r.
Qed.

(** ** Merge *)

(** C1.  [Merge<R1, R2>] has the keys of [R1] that [R2] lacks together with
    the keys of [R2]; a key of [R2] (whether or not [R1] has it too) carries
    exactly [R2]'s property, and a key of [R1] absent from [R2] carries
    exactly [R1]'s property. *)
Theorem Merge_right_biased (R1 R2 : gmap string (property ty)) (k : string) :
  keyof (Merge R1 R2) = Exclude (keyof R1) (keyof R2) ∪ keyof R2 ∧
  (k ∈ keyof R2 → Merge R1 R2 !! k = R2 !! k) ∧
  (k ∈ keyof R1 → k ∉ keyof R2 → Merge R1 R2 !! k = R1 !! k).
Proof.
  split; [|split].
  - rewrite keyof_Merge. unfold Exclude. apply set_eq. intros j.
    rewrite !elem_of_union, elem_of_difference.
    destruct (decide (j ∈ keyof R2)); tauto.
  - unfold keyof. intros [q Hq]%elem_of_dom. by rewrite lookup_Merge, Hq.
  - unfold keyof. intros _ Hk. rewrite lookup_Merge.
    apply not_elem_of_dom in Hk. by rewrite Hk.
Qed.

Lemma Merge_right_biased_witness :
  Merge R_modifiers R_ab !! "a" = Some (Property false false str) ∧
  Merge R_modifiers R_ab !! "c" = Some (Property false false str).
Proof.
  split.
  - rewrite (proj1 (proj2 (Merge_right_biased R_modifiers R_ab "a"))).
    + vm_compute. reflexivity.
    + apply elem_of_dom. eexists. vm_compute. reflexivity.
  - rewrite (proj2 (proj2 (Merge_right_biased R_modifiers R_ab "c"))).
    + vm_compute. reflexivity.
    + apply elem_of_dom. eexists. vm_compute. reflexivity.
    + apply not_elem_of_dom. vm_compute. reflexivity.
Defined.

(** ** MapValues *)

(** C7.  For a record type with at least one key, the union of the value
    types of [MapValues<R, X>] is exactly [X]. *)
Theorem ValueOf_MapValues (R : gmap string (property ty)) (X : ty) :
  keyof R ≠ ∅ → ValueOf (MapValues R X) = X.
Proof.
  intros HR. unfold ValueOf, MapValues, Obj. rewrite keyof_Record_.
  unfold index. apply foldr_union_const.
  - intros Hnil%fmap_nil_inv. apply HR. by apply elements_empty_inv, leibniz_equiv in Hnil.
  - apply Forall_fmap, Forall_forall. intros k Hk%elem_of_elements. simpl.
    rewrite lookup_Record_, decide_True by done. done.
Qed.

Lemma ValueOf_MapValues_witness :
  keyof R_modifiers ≠ ∅ ∧ ValueOf (MapValues R_modifiers num) = num.
Proof.
  assert (H : keyof R_modifiers ≠ ∅).
  { intros H. assert (Hc : "c" ∈ keyof R_modifiers).
    { apply elem_of_dom. eexists. vm_compute. reflexivity. }
    rewrite H in Hc. by apply not_elem_of_empty in Hc. }
  split; [exact H|]. exact (ValueOf_MapValues R_modifiers num H).
Defined.

(** Without keys there is nothing to take the union of. *)
Example ValueOf_MapValues_empty (X : ty) : ValueOf (MapValues ∅ X) = TNever.
Proof. reflexivity. Qed.

(** C9.  [MapValues<R, X>] has the keys of [R], and each of them is a
    required, mutable property of type [X], whatever modifiers the key
    carries in [R]. *)
Theorem MapValues_required_mutable
    (R : gmap string (property ty)) (X : ty) (k : string) :
  keyof (MapValues R X) = keyof R ∧
  (k ∈ keyof R → MapValues R X !! k = Some (Property false false X)).
Proof.
  unfold MapValues, Obj. split; [apply keyof_Record_|].
  intros Hk. by rewrite lookup_Record_, decide_True.
Qed.

Lemma MapValues_required_mutable_witness :
  R_modifiers !! "a" = Some (Property true false (TUnion str TUndefined)) ∧
  R_modifiers !! "b" = Some (Property false true num) ∧
  MapValues R_modifiers num !! "a" = Some (Property false false num) ∧
  MapValues R_modifiers num !! "b" = Some (Property false false num).
Proof.
  split; [vm_compute; reflexivity|]. split; [vm_compute; reflexivity|]. split.
  - apply (proj2 (MapValues_required_mutable R_modifiers num "a")).
    apply elem_of_dom. eexists. vm_compute. reflexivity.
  - apply (proj2 (MapValues_required_mutable R_modifiers num "b")).
    apply elem_of_dom. eexists. vm_compute. reflexivity.
Defined.

(** ** ReplaceValues *)

Lemma lookup_ReplaceValues (R : gmap string (property ty)) Keys V k :
  ReplaceValues R Keys V !! k =
    if decide (k ∈ Keys) then Some (Property false false V) else R !! k.
Proof.
  unfold ReplaceValues, Obj. rewrite lookup_Merge, lookup_Record_.
  by case_decide.
Qed.

(** C4.  For a key set [Keys] within the keys of [R], every key in [Keys]
    is rebound to [V] and every other key has exactly the property it has
    in [R]. *)
Theorem ReplaceValues_frame
    (R : gmap string (property ty)) (Keys : gset string) (V : ty) (k : string) :
  Keys ⊆ keyof R →
  (k ∈ Keys → ReplaceValues R Keys V !! k = Some (Property false false V)) ∧
  (k ∉ Keys → ReplaceValues R Keys V !! k = R !! k).
Proof.
  intros _. rewrite lookup_ReplaceValues. split; intros Hk.
  - by rewrite decide_True.
  - by rewrite decide_False.
Qed.

Lemma ReplaceValues_frame_witness :
  {["a"]} ⊆ keyof R_modifiers ∧
  ReplaceValues R_modifiers {["a"]} num !! "a" =
    Some (Property false false num) ∧
  ReplaceValues R_modifiers {["a"]} num !! "b" = R_modifiers !! "b".
Proof.
  assert (Hsub : ({["a"]} : gset string) ⊆ keyof R_modifiers).
  { intros j ->%elem_of_singleton. apply elem_of_dom. eexists.
    vm_compute. reflexivity. }
  split; [exact Hsub|]. split.
  - apply (proj1 (ReplaceValues_frame R_modifiers {["a"]} num "a" Hsub)).
    by apply elem_of_singleton.
  - apply (proj2 (ReplaceValues_frame R_modifiers {["a"]} num "b" Hsub)).
    by intros [=]%elem_of_singleton.
Defined.

(** ** RemoveKeys *)

(** C8.  Removing two disjoint key sets one after the other is removing
    their union. *)
Theorem RemoveKeys_RemoveKeys
    (R : gmap string (property ty)) (K1 K2 : gset string) :
  K1 ## K2 → K1 ⊆ keyof R → K2 ⊆ keyof R →
  RemoveKeys (RemoveKeys R K1) K2 = RemoveKeys R (K1 ∪ K2).
Proof.
  intros _ _ _. apply map_eq. intros k. rewrite !lookup_RemoveKeys.
  destruct (decide (k ∈ K1)), (decide (k ∈ K2)).
  - rewrite decide_True by (apply elem_of_union; tauto). done.
  - rewrite decide_True by (apply elem_of_union; tauto). done.
  - rewrite decide_True by (apply elem_of_union; tauto). done.
  - rewrite decide_False by (rewrite elem_of_union; tauto). done.
Qed.

Lemma RemoveKeys_RemoveKeys_witness :
  RemoveKeys (RemoveKeys R_modifiers {["a"]}) {["b"]} =
  RemoveKeys R_modifiers ({["a"]} ∪ {["b"]}).
Proof.
  apply RemoveKeys_RemoveKeys.
  - intros j ->%elem_of_singleton [=]%elem_of_singleton.
  - intros j ->%elem_of_singleton. apply elem_of_dom. eexists.
    vm_compute. reflexivity.
  - intros j ->%elem_of_singleton. apply elem_of_dom. eexists.
    vm_compute. reflexivity.
Defined.

(** ** RenameKey *)

Lemma lookup_RenameKey (R : gmap string (property ty)) Prev New k :
  RenameKey R Prev New !! k =
    if decide (k ∈ New) then Some (Property false false (index R Prev))
    else if decide (k ∈ Prev) then None
    else R !! k.
Proof.
  unfold RenameKey, Obj.
  rewrite lookup_Merge, lookup_Record_, lookup_RemoveKeys.
  by case_decide.
Qed.

(** Renaming one key to one key, as an update of the map. *)
Lemma RenameKey_unit (R : gmap string (property ty)) OldKey NewKey V :
  index R {[OldKey]} = V →
  RenameKey R {[OldKey]} {[NewKey]} =
    <[NewKey := Property false false V]> (delete OldKey R).
Proof.
  intros <-. apply map_eq. intros k. rewrite lookup_RenameKey.
  destruct (decide (k = NewKey)) as [->|Hne].
  - rewrite decide_True by (by apply elem_of_singleton).
    by rewrite lookup_insert_eq.
  - rewrite decide_False by (by rewrite elem_of_singleton).
    rewrite lookup_insert_ne by done.
    destruct (decide (k = OldKey)) as [->|Hne'].
    + rewrite decide_True by (by apply elem_of_singleton).
      by rewrite lookup_delete_eq.
    + rewrite decide_False by (by rewrite elem_of_singleton).
      by rewrite lookup_delete_ne.
Qed.

(** C6.  For a key [OldKey] of [R], [RenameKey<R, OldKey, NewKey>] is [R]
    without [OldKey] and with [NewKey] bound to the type [R[OldKey]]; the
    new binding replaces whatever [R] bound at [NewKey]. *)
Theorem RenameKey_spec
    (R : gmap string (property ty)) (OldKey NewKey : string) (p : property ty) :
  R !! OldKey = Some p →
  index R {[OldKey]} = ptype p ∧
  RenameKey R {[OldKey]} {[NewKey]} =
    <[NewKey := Property false false (index R {[OldKey]})]> (delete OldKey R).
Proof.
  intros Hp. split; [by apply index_singleton|]. by apply RenameKey_unit.
Qed.

(** Renaming onto another existing key: the renamed binding wins. *)
Lemma RenameKey_spec_witness :
  R_modifiers !! "c" = Some (Property false false str) ∧
  RenameKey R_modifiers {["b"]} {["c"]} !! "c" = Some (Property false false num) ∧
  RenameKey R_modifiers {["b"]} {["c"]} !! "b" = None.
Proof.
  assert (Hb : R_modifiers !! "b" = Some (Property false true num))
    by (vm_compute; reflexivity).
  destruct (RenameKey_spec R_modifiers "b" "c" _ Hb) as [Hi ->].
  rewrite Hi. split; [vm_compute; reflexivity|].
  split; vm_compute; reflexivity.
Defined.

(** C3, as the code has it.  Renaming a key to itself gives back [R] when
    the key is neither optional nor readonly in [R]. *)
Theorem RenameKey_same_key
    (R : gmap string (property ty)) (K : string) (p : property ty) :
  R !! K = Some p → optional p = false → readonly p = false →
  RenameKey R {[K]} {[K]} = R.
Proof.
  intros Hp Ho Hr.
  rewrite (RenameKey_unit R K K (ptype p)) by (by apply index_singleton).
  rewrite insert_delete_eq. apply insert_id. rewrite Hp.
  destruct p as [o r t]. simpl in *. by subst.
Qed.

Lemma RenameKey_same_key_witness :
  RenameKey R_modifiers {["c"]} {["c"]} = R_modifiers.
Proof.
  apply (RenameKey_same_key R_modifiers "c" (Property false false str)).
  - vm_compute. reflexivity.
  - reflexivity.
  - reflexivity.
Defined.

(** C3, as stated, fails: the optional key [a] of [{ a?: string }] comes
    back required. *)
Lemma RenameKey_same_key_counterexample :
  "a" ∈ keyof R_optional_a ∧
  RenameKey R_optional_a {["a"]} {["a"]} ≠ R_optional_a.
Proof.
  split.
  - apply elem_of_dom. eexists. vm_compute. reflexivity.
  - intros Heq. apply (f_equal (λ m, optional <$> m !! "a")) in Heq.
    vm_compute in Heq. discriminate Heq.
Qed.

(** The same for a readonly key: it comes back mutable. *)
Example RenameKey_same_key_readonly :
  RenameKey R_modifiers {["b"]} {["b"]} !! "b" = Some (Property false false num) ∧
  R_modifiers !! "b" = Some (Property false true num).
Proof. split; vm_compute; reflexivity. Qed.

(** C10.  The properties that [ReplaceValues] creates for [Keys] and that
    [RenameKey] creates for [NewKey] are required and mutable, whatever
    modifiers the source keys carry. *)
Theorem fresh_bindings_required_mutable
    (R : gmap string (property ty)) (Keys Prev New : gset string) (V : ty)
    (k : string) :
  (k ∈ Keys →
     ∃ p, ReplaceValues R Keys V !! k = Some p ∧
          optional p = false ∧ readonly p = false) ∧
  (k ∈ New →
     ∃ p, RenameKey R Prev New !! k = Some p ∧
          optional p = false ∧ readonly p = false).
Proof.
  split; intros Hk.
  - rewrite lookup_ReplaceValues, decide_True by done. eauto.
  - rewrite lookup_RenameKey, decide_True by done. eauto.
Qed.

Lemma fresh_bindings_required_mutable_witness :
  (∃ p, ReplaceValues R_modifiers {["a"; "b"]} num !! "a" = Some p ∧
        optional p = false ∧ readonly p = false) ∧
  (∃ p, RenameKey R_modifiers {["b"]} {["z"]} !! "z" = Some p ∧
        optional p = false ∧ readonly p = false).
Proof.
  split.
  - apply (proj1 (fresh_bindings_required_mutable
                    R_modifiers {["a"; "b"]} {["b"]} {["z"]} num "a")).
    apply elem_of_union. left. by apply elem_of_singleton.
  - apply (proj2 (fresh_bindings_required_mutable
                    R_modifiers {["a"; "b"]} {["b"]} {["z"]} num "z")).
    by apply elem_of_singleton.
Defined.

(** ** OptionalLikelyUndefProps *)

Lemma elem_of_members_union a b x :
  is_top a = false → is_top b = false →
  x ∈ members (union a b) ↔ x ∈ members a ∨ x ∈ members b.
Proof.
  intros Ha Hb.
  assert (Hgen : ∀ c : ty,
    (c = if decide (members b ⊆ members a) then a
         else if decide (members a ⊆ members b) then b else TUnion a b) →
    x ∈ members c ↔ x ∈ members a ∨ x ∈ members b).
  { intros c ->. repeat case_decide; simpl; rewrite ?elem_of_app; [| |tauto].
    - split; [tauto|]. intros [?|?]; auto.
    - split; [tauto|]. intros [?|?]; auto. }
  destruct a; try discriminate Ha; destruct b; try discriminate Hb;
    try (apply Hgen; reflexivity); simpl;
    rewrite ?elem_of_app, ?elem_of_nil; tauto.
Qed.

Lemma keylike_not_top t : keylike t → is_top t = false.
Proof.
  unfold keylike. destruct t; try done; simpl.
  - intros [[s [=]] _]%Forall_cons.
  - intros [[s [=]] _]%Forall_cons.
Qed.

Lemma keylike_union a b : keylike a → keylike b → keylike (union a b).
Proof.
  intros Ha Hb. unfold keylike. apply Forall_forall. intros x Hx.
  apply elem_of_members_union in Hx; auto using keylike_not_top.
  destruct Hx as [Hx|Hx]; [by eapply Forall_forall in Ha|by eapply Forall_forall in Hb].
Qed.

Lemma elem_of_keyset t k : k ∈ keyset t ↔ TLit k ∈ members t.
Proof.
  unfold keyset. rewrite elem_of_list_to_set, list_elem_of_omap. split.
  - intros (m & Hm & Heq). destruct m; simplify_eq. done.
  - intros Hm. exists (TLit k). done.
Qed.

(** The members of a union of key-like types are the literals listed. *)
Lemma members_foldr_union_keylike (l : list ty) k :
  Forall keylike l →
  keylike (foldr union TNever l) ∧
  (TLit k ∈ members (foldr union TNever l) ↔ ∃ t, t ∈ l ∧ TLit k ∈ members t).
Proof.
  induction l as [|t l IH]; intros Hl; simpl.
  - split; [by apply Forall_nil|]. split; [by intros ?%elem_of_nil|].
    by intros (t & ?%elem_of_nil & _).
  - apply Forall_cons in Hl as [Ht Hl]. destruct (IH Hl) as [Hk IH'].
    split; [by apply keylike_union|].
    rewrite elem_of_members_union by auto using keylike_not_top.
    rewrite IH'. split.
    + intros [Hin|(t' & Hin & Hm)]; [exists t|exists t'];
        rewrite elem_of_cons; auto.
    + intros (t' & [->|Hin]%elem_of_cons & Hm); eauto.
Qed.

Lemma lookup_LikelyUndefKeys (R : gmap string (property ty)) k :
  LikelyUndefKeys R !! k =
    (λ p, Property false (readonly p)
            (If (CanBeUndef (ptype p)) (TLit k) TNever)) <$> R !! k.
Proof.
  unfold LikelyUndefKeys. rewrite map_lookup_imap.
  destruct (R !! k) as [p|]; [|done]. simpl.
  by destruct (CanBeUndef (ptype p)).
Qed.

(** The key set that the filter computes: the keys whose property type
    admits [undefined]. *)
Lemma elem_of_LikelyUndefKeys (R : gmap string (property ty)) k :
  k ∈ keyset (ValueOf (LikelyUndefKeys R)) ↔
  ∃ p, R !! k = Some p ∧ CanBeUndef (ptype p) = true.
Proof.
  rewrite elem_of_keyset. unfold ValueOf, index.
  set (l := (λ j, default TNever (ptype <$> LikelyUndefKeys R !! j)) <$>
              elements (keyof (LikelyUndefKeys R))).
  assert (Hl : Forall keylike l).
  { apply Forall_fmap, Forall_forall. intros j _. simpl.
    rewrite lookup_LikelyUndefKeys. destruct (R !! j) as [p|]; simpl.
    - unfold If. destruct (CanBeUndef (ptype p)); unfold keylike; simpl; eauto.
    - by apply Forall_nil. }
  destruct (members_foldr_union_keylike l k Hl) as [_ ->]. subst l. split.
  - intros (t & (j & -> & Hj)%list_elem_of_fmap & Hm).
    rewrite lookup_LikelyUndefKeys in Hm.
    destruct (R !! j) as [p|] eqn:HR; simpl in Hm;
      [|by apply elem_of_nil in Hm].
    unfold If in Hm. destruct (CanBeUndef (ptype p)) eqn:Hc; simpl in Hm.
    + apply list_elem_of_singleton in Hm as [= ->]. eauto.
    + by apply elem_of_nil in Hm.
  - intros (p & HR & Hc). exists (TLit k).
    split; [|by apply list_elem_of_singleton].
    apply list_elem_of_fmap. exists k. split.
    + rewrite lookup_LikelyUndefKeys, HR. simpl. by rewrite Hc.
    + apply elem_of_elements. unfold keyof. apply elem_of_dom.
      rewrite lookup_LikelyUndefKeys, HR. by eexists.
Qed.

Lemma lookup_PickAsOptional (R : gmap string (property ty)) K k :
  PickAsOptional R K !! k =
    if decide (k ∈ K)
    then (λ p, Property true (readonly p) (add_undefined (ptype p))) <$> R !! k
    else None.
Proof.
  unfold PickAsOptional. rewrite lookup_fmap, lookup_Pick. by case_decide.
Qed.

Lemma lookup_OptionalLikelyUndefProps (R : gmap string (property ty)) k p :
  R !! k = Some p →
  OptionalLikelyUndefProps R !! k =
    Some (if CanBeUndef (ptype p)
          then Property true (readonly p) (ptype p) else p).
Proof.
  intros HR. unfold OptionalLikelyUndefProps, PickLikelyUndefPropsAsOptional.
  rewrite lookup_Merge, lookup_PickAsOptional, HR. simpl.
  destruct (CanBeUndef (ptype p)) eqn:Hc.
  - rewrite decide_True by (apply elem_of_LikelyUndefKeys; eauto).
    unfold add_undefined. unfold CanBeUndef in Hc. by rewrite Hc.
  - rewrite decide_False; [done|].
    intros (q & Hq & Hc')%elem_of_LikelyUndefKeys. congruence.
Qed.

(** C2.  On a well-formed record type, [OptionalLikelyUndefProps] keeps the
    keys, makes a key optional exactly when its property type admits
    [undefined] ([unknown] and [any] included), and changes no property
    type; [{ a: string, b: string | undefined }] becomes
    [{ a: string, b?: string | undefined }]. *)
Theorem OptionalLikelyUndefProps_spec :
  (∀ R : gmap string (property ty), wf_record R →
     keyof (OptionalLikelyUndefProps R) = keyof R ∧
     ∀ k p, R !! k = Some p →
       OptionalLikelyUndefProps R !! k =
         Some (Property (CanBeUndef (ptype p)) (readonly p) (ptype p))) ∧
  CanBeUndef TUnknown = true ∧ CanBeUndef TAny = true ∧
  OptionalLikelyUndefProps R_ab = R_ab_optional.
Proof.
  split; [|split; [done|split; [done|vm_compute; reflexivity]]].
  intros R Hwf. split.
  - unfold OptionalLikelyUndefProps. rewrite keyof_Merge.
    apply set_eq. intros k. rewrite elem_of_union. split; [|auto].
    intros [Hk|Hk]; [done|]. unfold keyof in *.
    apply elem_of_dom in Hk as [q Hq]. apply elem_of_dom.
    unfold PickLikelyUndefPropsAsOptional in Hq.
    rewrite lookup_PickAsOptional in Hq. case_decide; [|done].
    destruct (R !! k); [by eexists|done].
  - intros k p HR. rewrite (lookup_OptionalLikelyUndefProps R k p HR).
    destruct (CanBeUndef (ptype p)) eqn:Hc; [done|].
    specialize (Hwf k p HR). simpl in Hwf. unfold CanBeUndef in Hc.
    destruct p as [[] r t]; simpl in *; [|done].
    rewrite Hwf in Hc by done. done.
Qed.

Lemma OptionalLikelyUndefProps_spec_witness :
  wf_record R_modifiers ∧
  OptionalLikelyUndefProps R_modifiers !! "b" = Some (Property false true num).
Proof.
  assert (Hwf : wf_record R_modifiers).
  { unfold wf_record. apply map_Forall_lookup. intros k p Hk Ho.
    unfold R_modifiers in Hk.
    apply lookup_insert_Some in Hk as [[_ <-]|[_ Hk]]; [reflexivity|].
    apply lookup_insert_Some in Hk as [[_ <-]|[_ Hk]]; [discriminate Ho|].
    apply lookup_singleton_Some in Hk as [_ <-]. discriminate Ho. }
  split; [exact Hwf|].
  apply (proj2 (proj1 OptionalLikelyUndefProps_spec R_modifiers Hwf) "b"
           (Property false true num)).
  vm_compute. reflexivity.
Defined.

(** ** Induction on types *)

Lemma ty_size_lookup (m : gmap string (property ty)) k p :
  m !! k = Some p → ty_size (ptype p) < ty_size (TRecord m).
Proof.
  intros Hk. simpl.
  rewrite (map_fold_delete_L _ _ k p m); [lia| |done].
  intros; lia.
Qed.

(** Structural induction, with the induction hypothesis for every
    property type of a record. *)
Lemma ty_ind' (P : ty → Prop) :
  P TAny → P TUnknown → P TNever → P TUndefined →
  (∀ p, P (TPrim p)) → (∀ s, P (TLit s)) →
  (∀ a b, P a → P b → P (TUnion a b)) →
  (∀ a b, P a → P b → P (TInter a b)) →
  (∀ m, map_Forall (λ _ p, P (ptype p)) m → P (TRecord m)) →
  ∀ t, P t.
Proof.
  intros Hany Hunk Hnev Hund Hprim Hlit Hun Hint Hrec t.
  remember (ty_size t) as n eqn:Hn. revert t Hn.
  induction (lt_wf n) as [n _ IH]. intros t ->.
  destruct t as [| | | |p|s|a b|a b|m]; auto.
  - apply Hun; (eapply IH; [|reflexivity]); simpl; lia.
  - apply Hint; (eapply IH; [|reflexivity]); simpl; lia.
  - apply Hrec. intros k p Hk. eapply IH; [|reflexivity].
    by eapply ty_size_lookup.
Qed.

Lemma plain_lookup (m : gmap string (property ty)) k p :
  plain (TRecord m) = true → m !! k = Some p → plain (ptype p) = true.
Proof.
  intros Hm Hk. simpl in Hm.
  rewrite (map_fold_delete_L _ _ k p m) in Hm; [| |done].
  - by apply andb_true_iff in Hm as [? _].
  - intros. by rewrite !andb_assoc, (andb_comm (plain (ptype z1))).
Qed.

(** ** DeepMapValues *)

Lemma DeepMapValues_record (m : gmap string (property ty)) V :
  DeepMapValues (TRecord m) V =
    TRecord <$> map_sequence (DeepMapValues_property V <$> m).
Proof. reflexivity. Qed.

Lemma map_sequence_Some {A} (m : gmap string (option A)) :
  map_Forall (λ _ o, is_Some o) m →
  ∃ m', map_sequence m = Some m' ∧ dom m' = dom m ∧
        ∀ k, m' !! k = mjoin (m !! k).
Proof.
  intros Hm. exists (omap id m). unfold map_sequence.
  rewrite decide_True by done. split; [done|]. split.
  - apply set_eq. intros k. rewrite !elem_of_dom, lookup_omap.
    destruct (m !! k) as [o|] eqn:Hk; simpl.
    + destruct (Hm k o Hk) as [x ->]. split; eauto.
    + split; by intros [? ?].
  - intros k. rewrite lookup_omap. by destruct (m !! k) as [[]|].
Qed.

(** [DeepMapValues] has a result on every plain type. *)
Lemma DeepMapValues_total V t :
  plain t = true → is_Some (DeepMapValues t V).
Proof.
  induction t as [| | | |p|s|a b IHa IHb|a b _ _|m IH] using ty_ind';
    intros Hp; try done; try (by eexists).
  - simpl in Hp. apply andb_true_iff in Hp as [Ha Hb].
    destruct (IHa Ha) as [a' Ha'], (IHb Hb) as [b' Hb'].
    simpl. rewrite Ha', Hb'. by eexists.
  - rewrite DeepMapValues_record.
    destruct (map_sequence_Some (DeepMapValues_property V <$> m))
      as (m' & -> & _); [|by eexists].
    intros k o. rewrite lookup_fmap.
    destruct (m !! k) as [p|] eqn:Hk; [|done]. intros [= <-].
    pose proof (plain_lookup m k p Hp Hk) as Hpp.
    unfold DeepMapValues_property.
    destruct (is_any (ptype p)) eqn:Hany.
    { destruct (ptype p); discriminate. }
    destruct (extends_Obj (ptype p)); [|by eexists].
    destruct (IH k p Hk Hpp) as [t ->]. by eexists.
Qed.

(** A plain type that admits [undefined] is not assignable to [Obj]. *)
Lemma admits_undefined_not_Obj t :
  plain t = true → admits_undefined t = true → extends_Obj t = false.
Proof.
  induction t as [| | | |p|s|a b IHa IHb|a b _ _|m _] using ty_ind';
    simpl; try done.
  intros [Ha Hb]%andb_true_iff [Hu|Hu]%orb_true_iff.
  - by rewrite IHa.
  - rewrite IHb by done. apply andb_false_r.
Qed.

(** On a plain type no property is of type [any], and a property whose
    type is gone into has a result. *)
Lemma DeepMapValues_property_total V (m : gmap string (property ty)) k p :
  plain (TRecord m) = true → m !! k = Some p →
  ∃ t, (if extends_Obj (ptype p)
        then DeepMapValues (ptype p) V = Some t else t = V) ∧
       DeepMapValues_property V p =
         Some (Property (optional p) (readonly p)
                 (if optional p then add_undefined t else t)).
Proof.
  intros Hplain Hk. pose proof (plain_lookup m k p Hplain Hk) as Hpp.
  unfold DeepMapValues_property.
  destruct (is_any (ptype p)) eqn:Hany.
  { destruct (ptype p); discriminate. }
  destruct (extends_Obj (ptype p)).
  - destruct (DeepMapValues_total V (ptype p) Hpp) as [t Ht].
    exists t. by rewrite Ht.
  - by exists V.
Qed.

(** The result on a plain record type, property by property. *)
Lemma DeepMapValues_record_Some (R : gmap string (property ty)) V :
  plain (TRecord R) = true →
  ∃ R', DeepMapValues (TRecord R) V = Some (TRecord R') ∧
        dom R' = dom R ∧
        ∀ k, R' !! k = R !! k ≫= DeepMapValues_property V.
Proof.
  intros Hplain.
  destruct (map_sequence_Some (DeepMapValues_property V <$> R))
    as (R' & HR' & Hdom & Hlook).
  - intros k o. rewrite lookup_fmap.
    destruct (R !! k) as [p|] eqn:Hk; [|done]. intros [= <-].
    destruct (DeepMapValues_property_total V R k p Hplain Hk)
      as (t & _ & ->). by eexists.
  - exists R'. rewrite DeepMapValues_record, HR'. split; [done|].
    split; [by rewrite Hdom, dom_fmap_L|].
    intros k. rewrite Hlook, lookup_fmap. by destruct (R !! k).
Qed.

(** The result on a plain record type is well formed. *)
Lemma wf_record_DeepMapValues (R R' : gmap string (property ty)) V :
  plain (TRecord R) = true →
  DeepMapValues (TRecord R) V = Some (TRecord R') → wf_record R'.
Proof.
  intros Hplain HR'.
  destruct (DeepMapValues_record_Some R V Hplain) as (R'' & Heq & _ & Hlook).
  rewrite HR' in Heq. injection Heq as <-.
  intros k p'. rewrite Hlook.
  destruct (R !! k) as [p|] eqn:Hk; [|done]. simpl.
  destruct (DeepMapValues_property_total V R k p Hplain Hk) as (t & _ & ->).
  intros [= <-]. simpl. intros ->. apply add_undefined_admits.
Qed.

(** The transformation key by key, on a record type free of [any] and of
    intersections: [DeepMapValues] has a result with the keys of the
    source and, at each key, the modifiers of the source.  The
    transformation goes into the type read at a key exactly when that type
    is assignable to [Obj]; any other type is replaced by [V].  The type
    read at an optional key includes [undefined], so it is never gone into:
    the key is rebound to [V | undefined]. *)
Theorem DeepMapValues_spec (R : gmap string (property ty)) (V : ty) :
  plain (TRecord R) = true →
  ∃ R', DeepMapValues (TRecord R) V = Some (TRecord R') ∧
        keyof R' = keyof R ∧
        ∀ k p, R !! k = Some p →
          (∃ t, (if extends_Obj (ptype p)
                 then DeepMapValues (ptype p) V = Some t else t = V) ∧
                R' !! k = Some (Property (optional p) (readonly p)
                                  (if optional p then add_undefined t else t)))
          ∧ (optional p = true → admits_undefined (ptype p) = true →
             R' !! k = Some (Property true (readonly p) (add_undefined V))).
Proof.
  intros Hplain.
  destruct (DeepMapValues_record_Some R V Hplain) as (R' & HR' & Hdom & Hlook).
  exists R'. split; [done|]. split; [done|]. intros k p Hk.
  destruct (DeepMapValues_property_total V R k p Hplain Hk) as (t & Ht & Hp).
  rewrite Hlook, Hk. simpl. rewrite Hp. split; [by exists t|].
  intros Ho Hu.
  rewrite (admits_undefined_not_Obj _ (plain_lookup R k p Hplain Hk) Hu) in Ht.
  subst t. by rewrite Ho.
Qed.

Lemma DeepMapValues_spec_witness :
  plain (TRecord R_nested) = true ∧
  ∃ R', DeepMapValues (TRecord R_nested) num = Some (TRecord R') ∧
        keyof R' = keyof R_nested ∧
        R' !! "d" = Some (Property false false num).
Proof.
  assert (Hp : plain (TRecord R_nested) = true) by (vm_compute; reflexivity).
  split; [exact Hp|].
  destruct (DeepMapValues_spec R_nested num Hp) as (R' & HR' & Hdom & Hk).
  exists R'. split; [exact HR'|]. split; [exact Hdom|].
  destruct (Hk "d" (Property false false
              (TUnion str (TRecord {[ "e" := Property false false str ]}))))
    as [(t & Ht & Hd) _]; [vm_compute; reflexivity|].
  simpl in Ht. rewrite Ht in Hd. exact Hd.
Defined.

(** [{ a: { b: string, c?: string }, d: string | { e: string } }] maps to
    [{ a: { b: number, c?: number }, d: number }]. *)
Example DeepMapValues_nested :
  DeepMapValues (TRecord R_nested) num =
    Some (TRecord
      {[ "a" := Property false false
                  (TRecord {[ "b" := Property false false num;
                              "c" := Property true false
                                       (TUnion num TUndefined) ]});
         "d" := Property false false num ]}).
Proof. vm_compute. reflexivity. Qed.

(** With the bound value of a key read as the type written after its
    colon, [{ a?: { b: string } }] does not get what
    [DeepMapValues_recurses_into_records] asks for. *)
Lemma DeepMapValues_counterexample :
  ¬ DeepMapValues_recurses_into_records R_nested_optional num.
Proof.
  intros (R' & HR' & _ & Hkeys).
  vm_compute in HR'. injection HR' as <-.
  destruct (Hkeys "a" (Property true false
              (TUnion (TRecord {[ "b" := Property false false str ]})
                      TUndefined)))
    as (p' & Hp' & Hrec); [vm_compute; reflexivity|].
  vm_compute in Hp'. injection Hp' as <-.
  vm_compute in Hrec. discriminate Hrec.
Qed.

(** C5.  The code at the input where it departs from the claim.  Under
    the required key of [{ a: { b: string } }] the transformation goes into
    the record and gives [{ a: { b: number } }].  Under the optional key of
    [{ a?: { b: string } }] the same record is not gone into: the type read
    at the key is [{ b: string } | undefined], which is not assignable to
    [Obj], and the result is [{ a?: number }]. *)
Theorem DeepMapValues_optional_record :
  DeepMapValues (TRecord R_nested_required) num =
    Some (TRecord
      {[ "a" := Property false false
                  (TRecord {[ "b" := Property false false num ]}) ]}) ∧
  extends_Obj (index R_nested_optional {["a"]}) = false ∧
  DeepMapValues (TRecord R_nested_optional) num =
    Some (TRecord {[ "a" := Property true false (TUnion num TUndefined) ]}).
Proof. repeat split; vm_compute; reflexivity. Qed.

(** A key of type [never] stays of type [never]. *)
Example DeepMapValues_never :
  DeepMapValues (TRecord {[ "a" := Property false false TNever ]}) num =
    Some (TRecord {[ "a" := Property false false TNever ]}).
Proof. vm_compute. reflexivity. Qed.

(** * Further properties of the aliases *)

(** ** Merge as an operation on record types *)

(** X1.  The empty record type is neutral for [Merge] on both sides. *)
Theorem Merge_empty (R : gmap string (property ty)) :
  Merge R ∅ = R ∧ Merge ∅ R = R.
Proof. split; [apply Merge_empty_r|apply Merge_empty_l]. Qed.

(** X2.  [Merge] is associative: nesting merges to the left or to the right
    gives the same record type. *)
Theorem Merge_assoc (A B C : gmap string (property ty)) :
  Merge (Merge A B) C = Merge A (Merge B C).
Proof.
  apply map_eq. intros k. rewrite !lookup_Merge.
  by destruct (C !! k), (B !! k).
Qed.

(** X3.  Merging a record type with itself changes nothing, and merging
    the same right operand a second time changes nothing either. *)
Theorem Merge_idemp (A B : gmap string (property ty)) :
  Merge A A = A ∧ Merge (Merge A B) B = Merge A B.
Proof.
  split; apply map_eq; intros k; rewrite !lookup_Merge.
  - by destruct (A !! k).
  - by destruct (B !! k).
Qed.

(** X4.  [Merge] commutes exactly when its operands bind their common keys
    to the same property; in particular when they have no common key. *)
Theorem Merge_comm (A B : gmap string (property ty)) :
  (Merge A B = Merge B A ↔
   ∀ k p q, A !! k = Some p → B !! k = Some q → p = q) ∧
  (keyof A ## keyof B → Merge A B = Merge B A).
Proof.
  assert (Hiff : Merge A B = Merge B A ↔
                 ∀ k p q, A !! k = Some p → B !! k = Some q → p = q).
  { split.
    - intros Heq k p q Hp Hq. apply (f_equal (.!! k)) in Heq.
      rewrite !lookup_Merge, Hp, Hq in Heq. congruence.
    - intros Hagree. apply map_eq. intros k. rewrite !lookup_Merge.
      destruct (A !! k) as [p|] eqn:Hp, (B !! k) as [q|] eqn:Hq; try done.
      f_equal. symmetry. by eapply Hagree. }
  split; [exact Hiff|]. intros Hdisj. apply Hiff. intros k p q Hp Hq.
  exfalso. apply (Hdisj k); unfold keyof; apply elem_of_dom; eauto.
Qed.

Lemma Merge_comm_witness :
  Merge R_optional_a (Obj num {["z"]}) = Merge (Obj num {["z"]}) R_optional_a.
Proof.
  apply (proj2 (Merge_comm R_optional_a (Obj num {["z"]}))).
  unfold Obj. rewrite keyof_Record_. unfold keyof, R_optional_a.
  rewrite dom_singleton_L.
  intros k Ha Hz. apply elem_of_singleton in Ha. apply elem_of_singleton in Hz.
  rewrite Ha in Hz. discriminate Hz.
Defined.

(** ** RemoveKeys *)

(** X5.  [RemoveKeys<R, K>] has the keys of [R] outside [K], and each of
    them keeps its property of [R], modifiers included. *)
Theorem RemoveKeys_frame
    (R : gmap string (property ty)) (K : gset string) (k : string) :
  keyof (RemoveKeys R K) = keyof R ∖ K ∧
  (k ∈ K → RemoveKeys R K !! k = None) ∧
  (k ∉ K → RemoveKeys R K !! k = R !! k).
Proof.
  split; [|split].
  - unfold keyof. apply set_eq. intros j.
    rewrite elem_of_difference, !elem_of_dom, lookup_RemoveKeys.
    case_decide; [|tauto]. split; [by intros [? [=]]|tauto].
  - intros Hk. by rewrite lookup_RemoveKeys, decide_True.
  - intros Hk. by rewrite lookup_RemoveKeys, decide_False.
Qed.

Lemma RemoveKeys_frame_witness :
  RemoveKeys R_modifiers {["a"]} !! "a" = None ∧
  RemoveKeys R_modifiers {["a"]} !! "b" = Some (Property false true num).
Proof.
  split.
  - apply (proj1 (proj2 (RemoveKeys_frame R_modifiers {["a"]} "a"))).
    by apply elem_of_singleton.
  - rewrite (proj2 (proj2 (RemoveKeys_frame R_modifiers {["a"]} "b"))).
    + vm_compute. reflexivity.
    + intros Hb. apply elem_of_singleton in Hb. discriminate Hb.
Defined.

(** X6.  Removing no key gives the record type back; removing every key
    gives the empty record type. *)
Theorem RemoveKeys_edges (R : gmap string (property ty)) :
  RemoveKeys R ∅ = R ∧ RemoveKeys R (keyof R) = ∅.
Proof.
  split; apply map_eq; intros k; rewrite lookup_RemoveKeys.
  - by rewrite decide_False by apply not_elem_of_empty.
  - rewrite lookup_empty. case_decide as Hk; [done|].
    unfold keyof in Hk. by apply not_elem_of_dom in Hk.
Qed.

(** X7.  Removals commute and repeat without effect, whatever the two key
    sets are: no disjointness is needed. *)
Theorem RemoveKeys_comm (R : gmap string (property ty)) (K1 K2 : gset string) :
  RemoveKeys (RemoveKeys R K1) K2 = RemoveKeys (RemoveKeys R K2) K1 ∧
  RemoveKeys (RemoveKeys R K1) K2 = RemoveKeys R (K1 ∪ K2) ∧
  RemoveKeys (RemoveKeys R K1) K1 = RemoveKeys R K1.
Proof.
  split; [|split]; apply map_eq; intros k; rewrite !lookup_RemoveKeys;
    destruct (decide (k ∈ K1)), (decide (k ∈ K2)); try done.
  - by rewrite decide_True by (apply elem_of_union; tauto).
  - by rewrite decide_True by (apply elem_of_union; tauto).
  - by rewrite decide_True by (apply elem_of_union; tauto).
  - by rewrite decide_False by (rewrite elem_of_union; tauto).
Qed.

(** X8.  Splitting a record type into the part without [K] and the part
    picked by [K], and merging the two, gives the record type back. *)
Theorem Merge_RemoveKeys_Pick (R : gmap string (property ty)) (K : gset string) :
  Merge (RemoveKeys R K) (Pick R K) = R.
Proof.
  apply map_eq. intros k.
  rewrite lookup_Merge, lookup_RemoveKeys, lookup_Pick.
  case_decide; [|done]. by destruct (R !! k).
Qed.

(** ** ReplaceValues and MapValues *)

Lemma lookup_MapValues (R : gmap string (property ty)) X k :
  MapValues R X !! k = (λ _, Property false false X) <$> R !! k.
Proof.
  unfold MapValues, Obj, keyof. rewrite lookup_Record_.
  destruct (R !! k) as [p|] eqn:Hk; simpl.
  - rewrite decide_True; [done|]. apply elem_of_dom. eauto.
  - rewrite decide_False; [done|]. by apply not_elem_of_dom.
Qed.

(** X9.  Replacing the values of every key is [MapValues]. *)
Theorem ReplaceValues_all (R : gmap string (property ty)) (V : ty) :
  ReplaceValues R (keyof R) V = MapValues R V.
Proof.
  apply map_eq. intros k. rewrite lookup_ReplaceValues, lookup_MapValues.
  unfold keyof. case_decide as Hk.
  - apply elem_of_dom in Hk as [p ->]. done.
  - apply not_elem_of_dom in Hk. by rewrite Hk.
Qed.

(** X10.  [ReplaceValues] has the keys of the source together with [Keys];
    the key set is that of the source exactly when [Keys] names keys of
    the source only, which is the constraint on [TKeys]. *)
Theorem ReplaceValues_keyof
    (R : gmap string (property ty)) (Keys : gset string) (V : ty) :
  keyof (ReplaceValues R Keys V) = keyof R ∪ Keys ∧
  (keyof (ReplaceValues R Keys V) = keyof R ↔ Keys ⊆ keyof R).
Proof.
  assert (Hk : keyof (ReplaceValues R Keys V) = keyof R ∪ Keys).
  { unfold ReplaceValues, Obj. by rewrite keyof_Merge, keyof_Record_. }
  split; [exact Hk|]. rewrite Hk. split.
  - intros Heq k Hin. rewrite <- Heq. apply elem_of_union. by right.
  - intros Hsub. apply set_eq. intros k. rewrite elem_of_union.
    split; [|tauto]. intros [?|?]; auto.
Qed.

Lemma ReplaceValues_keyof_witness :
  keyof (ReplaceValues R_modifiers {["a"]} num) = keyof R_modifiers.
Proof.
  apply (proj2 (ReplaceValues_keyof R_modifiers {["a"]} num)).
  intros k Hk. apply elem_of_singleton in Hk. rewrite Hk.
  apply elem_of_dom. eexists. vm_compute. reflexivity.
Defined.

(** X11.  Of two replacements on the same keys the later one stands;
    replacements on disjoint key sets commute; replacing at no key changes
    nothing. *)
Theorem ReplaceValues_ReplaceValues
    (R : gmap string (property ty)) (K1 K2 : gset string) (V W : ty) :
  ReplaceValues (ReplaceValues R K1 V) K1 W = ReplaceValues R K1 W ∧
  (K1 ## K2 →
   ReplaceValues (ReplaceValues R K1 V) K2 W =
   ReplaceValues (ReplaceValues R K2 W) K1 V) ∧
  ReplaceValues R ∅ V = R.
Proof.
  split; [|split].
  - apply map_eq. intros k. rewrite !lookup_ReplaceValues. by case_decide.
  - intros Hdisj. apply map_eq. intros k. rewrite !lookup_ReplaceValues.
    destruct (decide (k ∈ K1)) as [H1|H1], (decide (k ∈ K2)) as [H2|H2];
      try done.
    destruct (Hdisj k H1 H2).
  - apply map_eq. intros k. rewrite lookup_ReplaceValues.
    by rewrite decide_False by apply not_elem_of_empty.
Qed.

Lemma ReplaceValues_ReplaceValues_witness :
  ReplaceValues (ReplaceValues R_modifiers {["a"]} num) {["b"]} str =
  ReplaceValues (ReplaceValues R_modifiers {["b"]} str) {["a"]} num.
Proof.
  apply (proj1 (proj2 (ReplaceValues_ReplaceValues
                         R_modifiers {["a"]} {["b"]} num str))).
  intros k Ha Hb. apply elem_of_singleton in Ha. apply elem_of_singleton in Hb.
  rewrite Ha in Hb. discriminate Hb.
Defined.

(** X12.  Removing keys whose values were just replaced is removing them
    from the source. *)
Theorem RemoveKeys_ReplaceValues
    (R : gmap string (property ty)) (Keys : gset string) (V : ty) :
  RemoveKeys (ReplaceValues R Keys V) Keys = RemoveKeys R Keys.
Proof.
  apply map_eq. intros k. rewrite !lookup_RemoveKeys, lookup_ReplaceValues.
  by case_decide.
Qed.

(** X13.  [MapValues] forgets the value of an earlier [MapValues], and it
    distributes over [Merge]. *)
Theorem MapValues_compose (A B : gmap string (property ty)) (X Y : ty) :
  MapValues (MapValues A X) Y = MapValues A Y ∧
  MapValues (Merge A B) X = Merge (MapValues A X) (MapValues B X).
Proof.
  split; apply map_eq; intros k.
  - rewrite !lookup_MapValues. by destruct (A !! k).
  - rewrite lookup_Merge, !lookup_MapValues, lookup_Merge.
    by destruct (B !! k), (A !! k).
Qed.

(** ** ReadonlyObj *)

(** X14.  [ReadonlyObj<V, K>] has exactly the keys [K], each a required,
    readonly property of type [V]. *)
Theorem ReadonlyObj_lookup (V : ty) (K : gset string) (k : string) :
  keyof (ReadonlyObj V K) = K ∧
  (k ∈ K → ReadonlyObj V K !! k = Some (Property false true V)) ∧
  (k ∉ K → ReadonlyObj V K !! k = None).
Proof.
  unfold ReadonlyObj, Readonly, Obj. split; [|split].
  - unfold keyof. rewrite dom_fmap_L. apply keyof_Record_.
  - intros Hk. by rewrite lookup_fmap, lookup_Record_, decide_True.
  - intros Hk. by rewrite lookup_fmap, lookup_Record_, decide_False.
Qed.

Lemma ReadonlyObj_lookup_witness :
  ReadonlyObj num {["a"]} !! "a" = Some (Property false true num) ∧
  ReadonlyObj num {["a"]} !! "b" = None.
Proof.
  split.
  - apply (proj1 (proj2 (ReadonlyObj_lookup num {["a"]} "a"))).
    by apply elem_of_singleton.
  - apply (proj2 (proj2 (ReadonlyObj_lookup num {["a"]} "b"))).
    intros Hb. apply elem_of_singleton in Hb. discriminate Hb.
Defined.

(** ** RenameKey, further *)

(** X15.  For key sets of any size, [RenameKey] has the keys of the source
    outside [TPrevKey] together with [TNewKey]; every key of [TNewKey] is
    bound to the union [R[TPrevKey]], and a key in neither set keeps its
    property of the source, modifiers included. *)
Theorem RenameKey_frame
    (R : gmap string (property ty)) (Prev New : gset string) (k : string) :
  keyof (RenameKey R Prev New) = (keyof R ∖ Prev) ∪ New ∧
  (k ∈ New →
   RenameKey R Prev New !! k = Some (Property false false (index R Prev))) ∧
  (k ∉ New → k ∉ Prev → RenameKey R Prev New !! k = R !! k).
Proof.
  split; [|split].
  - unfold keyof. apply set_eq. intros j.
    rewrite elem_of_union, elem_of_difference, !elem_of_dom, lookup_RenameKey.
    destruct (decide (j ∈ New)); [split; eauto|].
    destruct (decide (j ∈ Prev)); [|tauto].
    split; [by intros [? [=]]|tauto].
  - intros Hk. by rewrite lookup_RenameKey, decide_True.
  - intros Hn Hp. by rewrite lookup_RenameKey, !decide_False.
Qed.

Lemma RenameKey_frame_witness :
  RenameKey R_modifiers {["a"; "b"]} {["z"]} !! "z" =
    Some (Property false false (index R_modifiers {["a"; "b"]})) ∧
  RenameKey R_modifiers {["a"; "b"]} {["z"]} !! "c" =
    Some (Property false false str).
Proof.
  split.
  - apply (proj1 (proj2 (RenameKey_frame R_modifiers {["a"; "b"]} {["z"]} "z"))).
    by apply elem_of_singleton.
  - rewrite (proj2 (proj2 (RenameKey_frame R_modifiers {["a"; "b"]} {["z"]} "c"))).
    + vm_compute. reflexivity.
    + intros Hc. apply elem_of_singleton in Hc. discriminate Hc.
    + intros [Hc|Hc]%elem_of_union; apply elem_of_singleton in Hc;
        discriminate Hc.
Defined.

(** X16.  Renaming to no key at all ([never]) is removing the key. *)
Theorem RenameKey_to_never (R : gmap string (property ty)) (Prev : gset string) :
  RenameKey R Prev ∅ = RemoveKeys R Prev.
Proof.
  apply map_eq. intros k. rewrite lookup_RenameKey, lookup_RemoveKeys.
  by rewrite (decide_False (P := k ∈ ∅)) by apply not_elem_of_empty.
Qed.

(** X17.  Renaming a required, mutable key to a fresh name and back gives
    the record type back. *)
Theorem RenameKey_round_trip
    (R : gmap string (property ty)) (a b : string) (p : property ty) :
  R !! a = Some p → optional p = false → readonly p = false →
  b ∉ keyof R →
  RenameKey (RenameKey R {[a]} {[b]}) {[b]} {[a]} = R.
Proof.
  intros Ha Ho Hr Hb. unfold keyof in Hb. apply not_elem_of_dom in Hb.
  rewrite (RenameKey_unit R a b (ptype p)) by (by apply index_singleton).
  rewrite (RenameKey_unit _ b a (ptype p)).
  - rewrite delete_insert_eq.
    assert (a ≠ b) by congruence.
    rewrite (delete_id (delete a R) b) by (by rewrite lookup_delete_ne).
    rewrite insert_delete_eq. apply insert_id. rewrite Ha.
    destruct p as [o r t]. simpl in *. by subst.
  - apply (index_singleton _ b (Property false false (ptype p))).
    by rewrite lookup_insert_eq.
Qed.

Lemma RenameKey_round_trip_witness :
  RenameKey (RenameKey R_modifiers {["c"]} {["z"]}) {["z"]} {["c"]} =
  R_modifiers.
Proof.
  apply (RenameKey_round_trip R_modifiers "c" "z" (Property false false str)).
  - vm_compute. reflexivity.
  - reflexivity.
  - reflexivity.
  - apply not_elem_of_dom. vm_compute. reflexivity.
Defined.

(** X18.  Two renamings in a row through a fresh intermediate name are one
    renaming. *)
Theorem RenameKey_chain
    (R : gmap string (property ty)) (a b c : string) :
  b ∉ keyof R →
  RenameKey (RenameKey R {[a]} {[b]}) {[b]} {[c]} = RenameKey R {[a]} {[c]}.
Proof.
  intros Hb. unfold keyof in Hb. apply not_elem_of_dom in Hb.
  assert (Hi : index (RenameKey R {[a]} {[b]}) {[b]} = index R {[a]}).
  { apply (index_singleton _ b (Property false false (index R {[a]}))).
    rewrite lookup_RenameKey. by rewrite decide_True by (by apply elem_of_singleton). }
  apply map_eq. intros k. rewrite !lookup_RenameKey, Hi.
  repeat case_decide; try done;
    repeat match goal with
    | H : _ ∈ {[_]} |- _ => apply elem_of_singleton in H
    | H : _ ∉ {[_]} |- _ => rewrite elem_of_singleton in H
    end; subst; try done.
Qed.

Lemma RenameKey_chain_witness :
  RenameKey (RenameKey R_modifiers {["a"]} {["y"]}) {["y"]} {["z"]} =
  RenameKey R_modifiers {["a"]} {["z"]}.
Proof.
  apply RenameKey_chain. apply not_elem_of_dom. vm_compute. reflexivity.
Defined.

(** ** ValueOf *)

Lemma admits_undefined_iff_members t :
  admits_undefined t = true ↔
  ∃ m, m ∈ members t ∧ admits_undefined m = true.
Proof.
  induction t as [| | | |p|s|a IHa b IHb|a _ b _|m]; simpl;
    try (split; [intros H; eexists; split; [apply list_elem_of_here|exact H]
                |by intros (m' & ->%list_elem_of_singleton & H)]).
  - split; [done|]. by intros (m' & ?%elem_of_nil & _).
  - rewrite orb_true_iff, IHa, IHb. split.
    + intros [(m & Hm & H)|(m & Hm & H)]; exists m;
        rewrite elem_of_app; auto.
    + intros (m & [Hm|Hm]%elem_of_app & H); eauto.
Qed.

Lemma admits_undefined_subseteq a b :
  members a ⊆ members b →
  admits_undefined a = true → admits_undefined b = true.
Proof.
  intros Hsub (m & Hm & H)%admits_undefined_iff_members.
  apply admits_undefined_iff_members. exists m. auto.
Qed.

Lemma admits_undefined_union a b :
  admits_undefined (union a b) = admits_undefined a || admits_undefined b.
Proof.
  assert (Hgen : admits_undefined
    (if decide (members b ⊆ members a) then a
     else if decide (members a ⊆ members b) then b else TUnion a b) =
    admits_undefined a || admits_undefined b).
  { repeat case_decide; [| |done].
    - destruct (admits_undefined b) eqn:Hb; [|by rewrite orb_false_r].
      by rewrite (admits_undefined_subseteq b a).
    - destruct (admits_undefined a) eqn:Ha; [|done].
      by rewrite (admits_undefined_subseteq a b). }
  destruct a; destruct b; try exact Hgen; simpl;
    rewrite ?orb_true_r, ?orb_false_r; done.
Qed.

Lemma admits_undefined_foldr_union (l : list ty) :
  admits_undefined (foldr union TNever l) = true ↔
  ∃ t, t ∈ l ∧ admits_undefined t = true.
Proof.
  induction l as [|t l IH]; simpl.
  - split; [done|]. by intros (t & ?%elem_of_nil & _).
  - rewrite admits_undefined_union, orb_true_iff, IH. split.
    + intros [H|(t' & Hin & H)]; [exists t|exists t'];
        rewrite elem_of_cons; auto.
    + intros (t' & [->|Hin]%elem_of_cons & H); eauto.
Qed.

(** X19.  [ValueOf<R>] of the empty record type is [never], of a record
    type with one key it is the type of that key, and in general it admits
    [undefined] exactly when the type of some property of [R] does. *)
Theorem ValueOf_admits_undefined (R : gmap string (property ty)) :
  ValueOf ∅ = TNever ∧
  (∀ k p, ValueOf {[k := p]} = ptype p) ∧
  (admits_undefined (ValueOf R) = true ↔
   ∃ k p, R !! k = Some p ∧ admits_undefined (ptype p) = true).
Proof.
  split; [reflexivity|]. split.
  - intros k p. unfold ValueOf, keyof. rewrite dom_singleton_L.
    apply index_singleton. apply lookup_singleton_eq.
  - unfold ValueOf, index, keyof. rewrite admits_undefined_foldr_union. split.
    + intros (t & (k & -> & Hk)%list_elem_of_fmap & H).
      apply elem_of_elements, elem_of_dom in Hk as [p Hp].
      rewrite Hp in H. eauto.
    + intros (k & p & Hp & H). exists (ptype p). split; [|done].
      apply list_elem_of_fmap. exists k. rewrite Hp. split; [done|].
      apply elem_of_elements, elem_of_dom. eauto.
Qed.

Lemma ValueOf_admits_undefined_witness :
  admits_undefined (ValueOf R_modifiers) = true.
Proof.
  apply (proj2 (proj2 (ValueOf_admits_undefined R_modifiers))).
  exists "a", (Property true false (TUnion str TUndefined)).
  split; vm_compute; reflexivity.
Defined.

(** ** OptionalLikelyUndefProps, further *)

Lemma lookup_PickLikelyUndefPropsAsOptional
    (R : gmap string (property ty)) k :
  PickLikelyUndefPropsAsOptional R !! k =
    R !! k ≫= λ p, if CanBeUndef (ptype p)
                   then Some (Property true (readonly p) (ptype p))
                   else None.
Proof.
  unfold PickLikelyUndefPropsAsOptional. rewrite lookup_PickAsOptional.
  destruct (R !! k) as [p|] eqn:HR; simpl; [|by case_decide].
  destruct (CanBeUndef (ptype p)) eqn:Hc.
  - rewrite decide_True by (apply elem_of_LikelyUndefKeys; eauto).
    simpl. unfold add_undefined. unfold CanBeUndef in Hc. by rewrite Hc.
  - rewrite decide_False; [done|].
    intros (q & Hq & Hc')%elem_of_LikelyUndefKeys. congruence.
Qed.

Lemma lookup_OptionalLikelyUndefProps_fmap
    (R : gmap string (property ty)) k :
  OptionalLikelyUndefProps R !! k =
    (λ p, Property (optional p || CanBeUndef (ptype p)) (readonly p) (ptype p))
      <$> R !! k.
Proof.
  unfold OptionalLikelyUndefProps.
  rewrite lookup_Merge, lookup_PickLikelyUndefPropsAsOptional.
  destruct (R !! k) as [[o r t]|]; simpl; [|done].
  destruct (CanBeUndef t); simpl.
  - by rewrite orb_true_r.
  - by rewrite orb_false_r.
Qed.

(** X20.  The record type picked by [PickLikelyUndefPropsAsOptional] has
    exactly the keys of the source whose property type admits [undefined]:
    such a key is bound, optional, with its type and readonly modifier
    unchanged, and no other key is bound, whether a key of the source or
    not.  It is empty exactly when no property type admits [undefined]. *)
Theorem PickLikelyUndefPropsAsOptional_spec
    (R : gmap string (property ty)) (k : string) (p : property ty) :
  (R !! k = Some p → CanBeUndef (ptype p) = true →
   PickLikelyUndefPropsAsOptional R !! k =
     Some (Property true (readonly p) (ptype p))) ∧
  (R !! k = Some p → CanBeUndef (ptype p) = false →
   PickLikelyUndefPropsAsOptional R !! k = None) ∧
  (R !! k = None → PickLikelyUndefPropsAsOptional R !! k = None) ∧
  (k ∈ keyof (PickLikelyUndefPropsAsOptional R) ↔
   ∃ q, R !! k = Some q ∧ CanBeUndef (ptype q) = true) ∧
  (PickLikelyUndefPropsAsOptional R = ∅ ↔
   ∀ j q, R !! j = Some q → CanBeUndef (ptype q) = false).
Proof.
  split; [|split; [|split; [|split]]].
  - intros Hk Hc. rewrite lookup_PickLikelyUndefPropsAsOptional, Hk. simpl.
    by rewrite Hc.
  - intros Hk Hc. rewrite lookup_PickLikelyUndefPropsAsOptional, Hk. simpl.
    by rewrite Hc.
  - intros Hk. by rewrite lookup_PickLikelyUndefPropsAsOptional, Hk.
  - unfold keyof. rewrite elem_of_dom, lookup_PickLikelyUndefPropsAsOptional.
    destruct (R !! k) as [q|]; simpl.
    + destruct (CanBeUndef (ptype q)) eqn:Hc.
      * split; [intros _; eauto|intros _; by eexists].
      * split; [by intros [? [=]]|]. intros (q' & [= <-] & Hc'). congruence.
    + split; [by intros [? [=]]|by intros (q' & [=] & _)].
  - split.
    + intros Hempty j q Hj. apply (f_equal (.!! j)) in Hempty.
      rewrite lookup_PickLikelyUndefPropsAsOptional, Hj, lookup_empty in Hempty.
      simpl in Hempty. by destruct (CanBeUndef (ptype q)).
    + intros Hall. apply map_eq. intros j.
      rewrite lookup_PickLikelyUndefPropsAsOptional, lookup_empty.
      destruct (R !! j) as [q|] eqn:Hj; [|done]. simpl.
      by rewrite (Hall j q Hj).
Qed.

Lemma PickLikelyUndefPropsAsOptional_spec_witness :
  PickLikelyUndefPropsAsOptional R_ab !! "b" =
    Some (Property true false (TUnion str TUndefined)) ∧
  PickLikelyUndefPropsAsOptional R_ab !! "a" = None ∧
  PickLikelyUndefPropsAsOptional R_ab !! "z" = None ∧
  "b" ∈ keyof (PickLikelyUndefPropsAsOptional R_ab).
Proof.
  split; [|split; [|split]].
  - apply (proj1 (PickLikelyUndefPropsAsOptional_spec R_ab "b"
                    (Property false false (TUnion str TUndefined))));
      vm_compute; reflexivity.
  - apply (proj1 (proj2 (PickLikelyUndefPropsAsOptional_spec R_ab "a"
                    (Property false false str))));
      vm_compute; reflexivity.
  - apply (proj1 (proj2 (proj2 (PickLikelyUndefPropsAsOptional_spec R_ab "z"
                    (Property false false str))))).
    vm_compute. reflexivity.
  - apply (proj2 (proj1 (proj2 (proj2 (proj2
             (PickLikelyUndefPropsAsOptional_spec R_ab "b"
                (Property false false str))))))).
    exists (Property false false (TUnion str TUndefined)).
    split; vm_compute; reflexivity.
Defined.

(** X21.  Whatever the record type, [OptionalLikelyUndefProps] keeps every
    key with its type and its readonly modifier, and a key is optional in
    the result exactly when it was optional already or its type admits
    [undefined]: the alias adds optional modifiers and never removes one. *)
Theorem OptionalLikelyUndefProps_lookup
    (R : gmap string (property ty)) (k : string) :
  keyof (OptionalLikelyUndefProps R) = keyof R ∧
  OptionalLikelyUndefProps R !! k =
    (λ p, Property (optional p || CanBeUndef (ptype p)) (readonly p) (ptype p))
      <$> R !! k.
Proof.
  split; [|apply lookup_OptionalLikelyUndefProps_fmap].
  unfold keyof. apply set_eq. intros j.
  rewrite !elem_of_dom, lookup_OptionalLikelyUndefProps_fmap.
  by rewrite fmap_is_Some.
Qed.

(** X22.  [OptionalLikelyUndefProps] is idempotent. *)
Theorem OptionalLikelyUndefProps_idemp (R : gmap string (property ty)) :
  OptionalLikelyUndefProps (OptionalLikelyUndefProps R) =
  OptionalLikelyUndefProps R.
Proof.
  apply map_eq. intros k. rewrite !lookup_OptionalLikelyUndefProps_fmap.
  destruct (R !! k) as [[o r t]|]; simpl; [|done].
  by rewrite <- orb_assoc, orb_diag.
Qed.

(** X23.  [OptionalLikelyUndefProps] leaves a record type as it is exactly
    when every key whose type admits [undefined] is optional already. *)
Theorem OptionalLikelyUndefProps_fixed (R : gmap string (property ty)) :
  OptionalLikelyUndefProps R = R ↔
  ∀ k p, R !! k = Some p → CanBeUndef (ptype p) = true → optional p = true.
Proof.
  split.
  - intros Heq k p Hk Hc. apply (f_equal (.!! k)) in Heq.
    rewrite lookup_OptionalLikelyUndefProps_fmap, Hk in Heq. simpl in Heq.
    injection Heq as Heq. rewrite <- Heq. simpl. rewrite Hc. apply orb_true_r.
  - intros Hall. apply map_eq. intros k.
    rewrite lookup_OptionalLikelyUndefProps_fmap.
    destruct (R !! k) as [[o r t]|] eqn:Hk; simpl; [|done].
    destruct (CanBeUndef t) eqn:Hc; [|by rewrite orb_false_r].
    specialize (Hall k _ Hk Hc). simpl in Hall. by subst.
Qed.

Lemma OptionalLikelyUndefProps_fixed_witness :
  OptionalLikelyUndefProps R_modifiers = R_modifiers.
Proof.
  apply (proj2 (OptionalLikelyUndefProps_fixed R_modifiers)).
  intros k p Hk Hc. unfold R_modifiers in Hk.
  apply lookup_insert_Some in Hk as [[_ <-]|[_ Hk]]; [reflexivity|].
  apply lookup_insert_Some in Hk as [[_ <-]|[_ Hk]]; [discriminate Hc|].
  apply lookup_singleton_Some in Hk as [_ <-]. discriminate Hc.
Defined.

(** X24.  [OptionalLikelyUndefProps] commutes with [RemoveKeys] and
    distributes over [Merge]. *)
Theorem OptionalLikelyUndefProps_compose
    (A B : gmap string (property ty)) (K : gset string) :
  OptionalLikelyUndefProps (RemoveKeys A K) =
    RemoveKeys (OptionalLikelyUndefProps A) K ∧
  OptionalLikelyUndefProps (Merge A B) =
    Merge (OptionalLikelyUndefProps A) (OptionalLikelyUndefProps B).
Proof.
  split; apply map_eq; intros k.
  - rewrite lookup_OptionalLikelyUndefProps_fmap, !lookup_RemoveKeys,
      lookup_OptionalLikelyUndefProps_fmap.
    by case_decide.
  - rewrite lookup_OptionalLikelyUndefProps_fmap, !lookup_Merge,
      !lookup_OptionalLikelyUndefProps_fmap.
    by destruct (B !! k).
Qed.

(** X25.  [OptionalLikelyUndefProps] changes no value type:
    [ValueOf] is the same before and after. *)
Theorem ValueOf_OptionalLikelyUndefProps (R : gmap string (property ty)) :
  ValueOf (OptionalLikelyUndefProps R) = ValueOf R.
Proof.
  unfold ValueOf, index.
  assert (Hdom : keyof (OptionalLikelyUndefProps R) = keyof R).
  { unfold keyof. apply set_eq. intros j.
    rewrite !elem_of_dom, lookup_OptionalLikelyUndefProps_fmap.
    by rewrite fmap_is_Some. }
  rewrite Hdom. f_equal. apply list_fmap_ext. intros _ k _.
  rewrite lookup_OptionalLikelyUndefProps_fmap. by destruct (R !! k).
Qed.

(** ** DeepMapValues, further *)

Lemma map_sequence_inv {A} (m : gmap string (option A)) m' :
  map_sequence m = Some m' →
  map_Forall (λ _ o, is_Some o) m ∧ ∀ k, m' !! k = mjoin (m !! k).
Proof.
  unfold map_sequence. case_decide as Hall; [|done]. intros [= <-].
  split; [done|]. intros k. rewrite lookup_omap. by destruct (m !! k) as [[]|].
Qed.

(** A result on a record type is a record type, read property by
    property. *)
Lemma DeepMapValues_record_inv (R R' : gmap string (property ty)) V :
  DeepMapValues (TRecord R) V = Some (TRecord R') ↔
  ∀ k, Some <$> R' !! k = DeepMapValues_property V <$> R !! k.
Proof.
  rewrite DeepMapValues_record. split.
  - destruct (map_sequence (DeepMapValues_property V <$> R)) as [m'|] eqn:Hs;
      [|done].
    intros [= <-]. apply map_sequence_inv in Hs as [Hall Hlook].
    intros k. rewrite Hlook, lookup_fmap.
    destruct (R !! k) as [p|] eqn:Hk; [|done]. simpl.
    destruct (Hall k (DeepMapValues_property V p)) as [p' ->]; [|done].
    by rewrite lookup_fmap, Hk.
  - intros Hlook.
    destruct (map_sequence_Some (DeepMapValues_property V <$> R))
      as (m' & -> & _ & Hm').
    + intros k o. rewrite lookup_fmap. specialize (Hlook k).
      destruct (R !! k) as [p|]; [|done]. simpl in *. intros [= <-].
      destruct (R' !! k); simplify_eq/=. by eexists.
    + simpl. do 2 f_equal. apply map_eq. intros k.
      rewrite Hm', lookup_fmap. specialize (Hlook k).
      destruct (R !! k) as [p|], (R' !! k) as [p'|]; simplify_eq/=; done.
Qed.

(** X26.  On a record type whose properties are all required and mutable
    and none of whose property types is assignable to [Obj], the deep
    transformation is the shallow one: [DeepMapValues] is [MapValues]. *)
Theorem DeepMapValues_flat (R : gmap string (property ty)) (V : ty) :
  (∀ k p, R !! k = Some p →
     optional p = false ∧ readonly p = false ∧ extends_Obj (ptype p) = false) →
  DeepMapValues (TRecord R) V = Some (TRecord (MapValues R V)).
Proof.
  intros Hflat. apply DeepMapValues_record_inv. intros k.
  rewrite lookup_MapValues. destruct (R !! k) as [[o r t]|] eqn:Hk; [|done].
  destruct (Hflat k _ Hk) as (Ho & Hr & He). simpl in *. subst o r.
  unfold DeepMapValues_property. simpl. rewrite He.
  by destruct t.
Qed.

Lemma DeepMapValues_flat_witness :
  DeepMapValues (TRecord (Obj str {["a"; "b"]})) num =
    Some (TRecord (MapValues (Obj str {["a"; "b"]}) num)).
Proof.
  apply DeepMapValues_flat. intros k p. unfold Obj. rewrite lookup_Record_.
  case_decide; [|intros Hp; discriminate Hp].
  intros Hp. injection Hp as <-. repeat split.
Defined.

(** X27.  Where every key is required and is bound either to a record type
    or to a type that is not assignable to [Obj], [DeepMapValues] does what
    C5 words: a key bound to a record type is bound to the transformation
    of that record type, and any other key is bound to [V]. *)
Theorem DeepMapValues_required_keys (R : gmap string (property ty)) (V : ty) :
  plain (TRecord R) = true →
  (∀ k p, R !! k = Some p →
     optional p = false ∧
     match ptype p with
     | TRecord _ => True
     | t => extends_Obj t = false
     end) →
  DeepMapValues_recurses_into_records R V.
Proof.
  intros Hplain Hreq.
  destruct (DeepMapValues_record_Some R V Hplain) as (R' & HR' & Hdom & Hlook).
  exists R'. split; [done|]. split; [done|]. intros k p Hk.
  destruct (DeepMapValues_property_total V R k p Hplain Hk) as (t & Ht & Hp).
  exists (Property (optional p) (readonly p)
            (if optional p then add_undefined t else t)).
  split; [by rewrite Hlook, Hk|].
  destruct (Hreq k p Hk) as [Ho Hty]. unfold declared_type. simpl.
  rewrite Ho in *. destruct (ptype p); simpl in *; try done;
    try (rewrite Hty in Ht; done).
Qed.

Lemma DeepMapValues_required_keys_witness :
  DeepMapValues_recurses_into_records
    {[ "a" := Property false false (TRecord {[ "b" := Property false true str ]});
       "c" := Property false false str ]} num.
Proof.
  apply DeepMapValues_required_keys.
  - vm_compute. reflexivity.
  - intros k p Hk.
    apply lookup_insert_Some in Hk as [[_ <-]|[_ Hk]]; [by split|].
    apply lookup_singleton_Some in Hk as [_ <-]. by split.
Defined.

(** X28.  [DeepMapValues] distributes over [Merge] and commutes with
    [RemoveKeys]: transforming the parts and combining them is
    transforming the combination. *)
Theorem DeepMapValues_compose
    (A B A' B' : gmap string (property ty)) (K : gset string) (V : ty) :
  DeepMapValues (TRecord A) V = Some (TRecord A') →
  DeepMapValues (TRecord B) V = Some (TRecord B') →
  DeepMapValues (TRecord (Merge A B)) V = Some (TRecord (Merge A' B')) ∧
  DeepMapValues (TRecord (RemoveKeys A K)) V =
    Some (TRecord (RemoveKeys A' K)).
Proof.
  intros HA HB. rewrite DeepMapValues_record_inv in HA, HB.
  split; apply DeepMapValues_record_inv; intros k.
  - rewrite !lookup_Merge. specialize (HA k). specialize (HB k).
    destruct (B !! k) as [q|], (B' !! k) as [q'|]; simpl in *; congruence.
  - rewrite !lookup_RemoveKeys. by case_decide.
Qed.

Lemma DeepMapValues_compose_witness :
  DeepMapValues (TRecord (Merge R_nested R_nested_optional)) num =
    Some (TRecord (Merge
      {[ "a" := Property false false
                  (TRecord {[ "b" := Property false false num;
                              "c" := Property true false
                                       (TUnion num TUndefined) ]});
         "d" := Property false false num ]}
      {[ "a" := Property true false (TUnion num TUndefined) ]})).
Proof.
  apply (proj1 (DeepMapValues_compose R_nested R_nested_optional _ _ ∅ num
                  ltac:(vm_compute; reflexivity) ltac:(vm_compute; reflexivity))).
Defined.

(** ** DeepMapValues over an intersection *)

Lemma DeepMapValues_inter a b V :
  DeepMapValues (TInter a b) V =
    if is_object a && is_object b then
      match DeepMapValues a V, DeepMapValues b V with
      | Some (TRecord ma), Some (TRecord mb) =>
          if decide (keyof ma ## keyof mb)
          then Some (TRecord (intersect ma mb)) else None
      | _, _ => None
      end
    else None.
Proof. reflexivity. Qed.

Lemma DeepMapValues_record_is_record (R : gmap string (property ty)) V t :
  DeepMapValues (TRecord R) V = Some t → ∃ R', t = TRecord R'.
Proof.
  rewrite DeepMapValues_record.
  destruct (map_sequence (DeepMapValues_property V <$> R)) as [R'|]; [|done].
  intros [= <-]. by exists R'.
Qed.

Lemma DeepMapValues_record_keyof (R R' : gmap string (property ty)) V :
  DeepMapValues (TRecord R) V = Some (TRecord R') → keyof R' = keyof R.
Proof.
  intros H. pose proof (proj1 (DeepMapValues_record_inv R R' V) H) as Hlook.
  unfold keyof. apply set_eq. intros k. rewrite !elem_of_dom.
  specialize (Hlook k).
  destruct (R !! k) as [p|], (R' !! k) as [p'|]; simplify_eq/=;
    split; intros [? ?]; by eauto.
Qed.

Lemma lookup_intersect_disjoint (A B : gmap string (property ty)) k :
  keyof A ## keyof B →
  intersect A B !! k = match A !! k with Some p => Some p | None => B !! k end.
Proof.
  intros Hdisj. destruct (A !! k) as [p|] eqn:HA.
  - rewrite lookup_intersect_l, HA; [done|].
    destruct (B !! k) as [q|] eqn:HB; [|done].
    exfalso. apply (Hdisj k); unfold keyof; apply elem_of_dom; eauto.
  - by rewrite lookup_intersect_r.
Qed.

(** The part of a result that belongs to one operand of a disjoint
    intersection is the result on that operand. *)
Lemma DeepMapValues_record_restrict
    (A B R' : gmap string (property ty)) V :
  (∀ k p, A !! k = Some p → B !! k = Some p) →
  DeepMapValues (TRecord B) V = Some (TRecord R') →
  DeepMapValues (TRecord A) V = Some (TRecord (Pick R' (keyof A))).
Proof.
  intros Hsub HB. rewrite DeepMapValues_record_inv in HB.
  apply DeepMapValues_record_inv. intros k. rewrite lookup_Pick.
  specialize (HB k). unfold keyof. destruct (A !! k) as [p|] eqn:HA.
  - rewrite decide_True by (apply elem_of_dom; eauto).
    by rewrite (Hsub k p HA) in HB.
  - rewrite decide_False; [done|]. by apply not_elem_of_dom.
Qed.

(** X29.  Over the intersection of two record types with no key in common,
    [DeepMapValues] is [DeepMapValues] of the one record type that has the
    properties of both: [DeepMapValues<{x: string} & {y: string}, number>]
    is [{x: number, y: number}]. *)
Theorem DeepMapValues_intersection
    (A B : gmap string (property ty)) (V : ty) :
  keyof A ## keyof B →
  DeepMapValues (TInter (TRecord A) (TRecord B)) V =
  DeepMapValues (TRecord (intersect A B)) V.
Proof.
  intros Hdisj. rewrite DeepMapValues_inter. cbn [is_object andb].
  assert (HsubA : ∀ k p, A !! k = Some p → intersect A B !! k = Some p).
  { intros k p Hk. by rewrite lookup_intersect_disjoint, Hk. }
  assert (HsubB : ∀ k p, B !! k = Some p → intersect A B !! k = Some p).
  { intros k p Hk. rewrite lookup_intersect_disjoint by done.
    destruct (A !! k) as [q|] eqn:HA; [|done].
    exfalso. apply (Hdisj k); unfold keyof; apply elem_of_dom; eauto. }
  destruct (DeepMapValues (TRecord (intersect A B)) V) as [t|] eqn:HAB.
  - destruct (DeepMapValues_record_is_record _ _ _ HAB) as [R' ->].
    rewrite (DeepMapValues_record_restrict A _ R' V HsubA HAB).
    rewrite (DeepMapValues_record_restrict B _ R' V HsubB HAB).
    assert (Hd : keyof (Pick R' (keyof A)) ## keyof (Pick R' (keyof B))).
    { unfold keyof at 1 3. intros k [p Hp]%elem_of_dom [q Hq]%elem_of_dom.
      rewrite lookup_Pick in Hp, Hq. repeat case_decide; try done.
      by apply (Hdisj k). }
    rewrite decide_True by done. do 2 f_equal. apply map_eq. intros k.
    rewrite lookup_intersect_disjoint, !lookup_Pick by done.
    pose proof (DeepMapValues_record_keyof _ _ _ HAB) as Hkeys.
    destruct (decide (k ∈ keyof A)) as [HkA|HkA].
    + destruct (R' !! k) as [p'|] eqn:Hk'; [done|].
      case_decide; done.
    + case_decide as HkB; [done|].
      destruct (R' !! k) as [p'|] eqn:Hk'; [|done]. exfalso.
      assert (Hin : k ∈ keyof R') by (unfold keyof; apply elem_of_dom; eauto).
      rewrite Hkeys in Hin. unfold keyof in *.
      apply elem_of_dom in Hin as [p Hp].
      rewrite lookup_intersect_disjoint in Hp by done.
      destruct (A !! k) as [pa|] eqn:HA.
      * apply HkA, elem_of_dom. eauto.
      * apply HkB, elem_of_dom. eauto.
  - destruct (DeepMapValues (TRecord A) V) as [ta|] eqn:HA; [|done].
    destruct (DeepMapValues_record_is_record _ _ _ HA) as [A' ->].
    destruct (DeepMapValues (TRecord B) V) as [tb|] eqn:HB; [|done].
    destruct (DeepMapValues_record_is_record _ _ _ HB) as [B' ->].
    exfalso.
    assert (Hsome : DeepMapValues (TRecord (intersect A B)) V =
                    Some (TRecord (intersect A' B'))); [|congruence].
    pose proof (DeepMapValues_record_keyof _ _ _ HA) as HkA.
    pose proof (DeepMapValues_record_keyof _ _ _ HB) as HkB.
    rewrite DeepMapValues_record_inv in HA, HB.
    apply DeepMapValues_record_inv. intros k.
    rewrite !lookup_intersect_disjoint by (by rewrite ?HkA, ?HkB).
    specialize (HA k). specialize (HB k).
    destruct (A !! k) as [p|], (A' !! k) as [p'|]; simplify_eq/=; try done.
    by rewrite HA.
Qed.

Lemma DeepMapValues_intersection_witness :
  DeepMapValues
    (TInter (TRecord {[ "x" := Property false false str ]})
            (TRecord {[ "y" := Property false false str ]})) num =
  Some (TRecord {[ "x" := Property false false num;
                   "y" := Property false false num ]}).
Proof.
  rewrite DeepMapValues_intersection.
  - vm_compute. reflexivity.
  - unfold keyof. rewrite !dom_singleton_L.
    intros k Hx Hy. apply elem_of_singleton in Hx. apply elem_of_singleton in Hy.
    rewrite Hx in Hy. discriminate Hy.
Defined.
